(** * PII masking of Markdown documents: the span rewriting engine

    A shallow embedding of [pii_encrypt_md.py]: the line index, the match
    record, the back-to-front replacement loops of the encrypt and anonymize
    modes, the marker pattern [ENCODED_PATTERN] and the decryption pass,
    together with the two command branches of [main] as far as they decide
    what is written and reported.

    Conventions.
    - A Python [str] is a [list ascii]; offsets and all other Python [int]s
      are [Z] (they may be negative, and slicing treats negative bounds the
      way Python does).
    - The Fernet cipher, Python's salted [hash] of a [str] and the Presidio
      analyzer are outside the program: they are taken as interfaces, and a
      call that can raise returns an [option] or a [result]. *)

From Stdlib Require Import ZArith List Ascii String Lia Bool.
From Stdlib Require Import Permutation Sorted DecimalString Floats.
Import ListNotations.
Open Scope Z_scope.

(** ** Python strings *)

Module PyStr.

Definition str := list ascii.

Definition lit (s : string) : str := list_ascii_of_string s.

Definition len (s : str) : Z := Z.of_nat (List.length s).

(** A slice bound [i] against a sequence of length [n]: negative bounds count
    from the end, and every bound is clamped into [0, n]. *)
Definition clamp (i n : Z) : Z :=
  if i <? 0 then Z.max 0 (i + n) else Z.min i n.

(** [s[:stop]] *)
Definition slice_to (s : str) (stop : Z) : str :=
  firstn (Z.to_nat (clamp stop (len s))) s.

(** [s[start:]] *)
Definition slice_from (s : str) (start : Z) : str :=
  skipn (Z.to_nat (clamp start (len s))) s.

(** [s[start:stop]] *)
Definition slice (s : str) (start stop : Z) : str :=
  let lo := Z.to_nat (clamp start (len s)) in
  let hi := Z.to_nat (clamp stop (len s)) in
  firstn (hi - lo) (skipn lo s).

(** [str(n)] for a non-negative [int]. *)
Definition str_of_int (n : Z) : str :=
  lit (NilZero.string_of_uint (N.to_uint (Z.to_N n))).

Definition eqb (a b : str) : bool :=
  if list_eq_dec ascii_dec a b then true else false.

End PyStr.

Import PyStr.

(** ** The match record *)

Record PiiMatch := mkPiiMatch {
  start : Z;
  end_ : Z;
  entity_type : str;
  score : float;
  text : str;
  line : Z;
  column : Z
}.

(** ** Line index *)

Definition newline : ascii := "010"%char.

(** The [match.end()] of every occurrence of a newline, left to right; [pos]
    is the offset of the head of the remaining text. *)
Fixpoint newline_ends (pos : Z) (s : str) : list Z :=
  match s with
  | [] => []
  | c :: rest =>
      if Ascii.eqb c newline
      then (pos + 1) :: newline_ends (pos + 1) rest
      else newline_ends (pos + 1) rest
  end.

Definition calculate_line_col_map (md_text : str) : list Z :=
  0 :: newline_ends 0 md_text.

(** The [for i, start in enumerate(line_starts)] loop: [i] is the index of
    the head of [ls], [line_index] the value assigned so far. *)
Fixpoint scan_lines (offset : Z) (i : nat) (line_index : nat) (ls : list Z)
  : nat :=
  match ls with
  | [] => line_index
  | s :: rest =>
      if s <=? offset then scan_lines offset (S i) i rest else line_index
  end.

(** [None] is the [IndexError] of [line_starts[line_index]] on an empty
    list. *)
Definition offset_to_line_col (offset : Z) (line_starts : list Z)
  : option (Z * Z) :=
  let line_index := scan_lines offset 0 0 line_starts in
  match nth_error line_starts line_index with
  | None => None
  | Some line_start =>
      Some (Z.of_nat line_index + 1, offset - line_start + 1)
  end.

(** ** Results of calls that can raise *)

Inductive exc :=
| ValueError
| RuntimeError
| IndexError
| External.   (* raised inside Fernet or Presidio *)

Inductive result (A : Type) :=
| Ok (a : A)
| Raise (e : exc).

Arguments Ok {A} a.
Arguments Raise {A} e.

Definition bind {A B} (r : result A) (k : A -> result B) : result B :=
  match r with
  | Ok a => k a
  | Raise e => Raise e
  end.

Notation "x <- r ;; k" := (bind r (fun x => k))
  (at level 61, r at next level, right associativity).

(** ** The Fernet cipher, as the program uses it *)

Record Cipher := {
  key : Type;
  (** the randomness one call of [Fernet.encrypt] or [Fernet.generate_key]
      draws (time stamp and initialisation vector) *)
  nonce : Type;
  (** [base64.urlsafe_b64encode(base64.urlsafe_b64decode(k))]; [None] when
      decoding raises *)
  b64_normalize : str -> option key;
  generate_key : nonce -> key;
  (** [encrypt_text(plaintext, key_b64)]; [None] when [Fernet(key_b64)] or
      the encoding raises *)
  encrypt_text : str -> key -> nonce -> option str;
  (** [decrypt_text(token, key_b64)]; [None] when anything in it raises *)
  decrypt_text : str -> key -> option str
}.

Definition ensure_fernet_key (C : Cipher) (key_b64 : option str)
  (r : nonce C) : result (key C) :=
  match key_b64 with
  | Some ((_ :: _) as k) =>
      match b64_normalize C k with
      | Some checked => Ok checked
      | None => Raise ValueError
      end
  | _ => Ok (generate_key C r)
  end.

(** ** The marker pattern *)

Module Re.

Inductive regex :=
| Lit (s : str)
| Class (p : ascii -> bool)
| Plus (r : regex)
| Star (r : regex)
| Seq (r1 r2 : regex).

(** The strings a pattern matches in full. *)
Inductive matches : regex -> str -> Prop :=
| MLit s : matches (Lit s) s
| MClass (p : ascii -> bool) c : p c = true -> matches (Class p) [c]
| MPlus1 r s : matches r s -> matches (Plus r) s
| MPlusS r s1 s2 :
    matches r s1 -> matches (Plus r) s2 -> matches (Plus r) (s1 ++ s2)
| MStar0 r : matches (Star r) []
| MStarS r s1 s2 :
    matches r s1 -> matches (Star r) s2 -> matches (Star r) (s1 ++ s2)
| MSeq r1 r2 s1 s2 :
    matches r1 s1 -> matches r2 s2 -> matches (Seq r1 r2) (s1 ++ s2).

End Re.

Definition in_range (lo hi : N) (c : ascii) : bool :=
  let n := N_of_ascii c in (lo <=? n)%N && (n <=? hi)%N.

(** [[A-Z_]] *)
Definition entity_char (c : ascii) : bool :=
  in_range 65 90 c || Ascii.eqb c "_".

(** [[A-Za-z0-9_\-]] *)
Definition token_char (c : ascii) : bool :=
  in_range 65 90 c || in_range 97 122 c || in_range 48 57 c
  || Ascii.eqb c "_" || Ascii.eqb c "-".

Definition equals_char (c : ascii) : bool := Ascii.eqb c "=".

(** Group 1, [[A-Z_]+], and group 2, [[A-Za-z0-9_\-]+=*]. *)
Definition entity_re : Re.regex := Re.Plus (Re.Class entity_char).
Definition token_re : Re.regex :=
  Re.Seq (Re.Plus (Re.Class token_char)) (Re.Star (Re.Class equals_char)).

Definition ENCODED_PATTERN : Re.regex :=
  Re.Seq (Re.Lit (lit "{{ENC:"))
    (Re.Seq entity_re
       (Re.Seq (Re.Lit (lit ":")) (Re.Seq token_re (Re.Lit (lit "}}"))))).

(** [f"{{{{ENC:{entity_type}:{ciphertext}}}}}"] *)
Definition safe_token (entity ciphertext : str) : str :=
  lit "{{ENC:" ++ entity ++ lit ":" ++ ciphertext ++ lit "}}".

Fixpoint strip_prefix (p s : str) : option str :=
  match p, s with
  | [], _ => Some s
  | a :: p', b :: s' => if Ascii.eqb a b then strip_prefix p' s' else None
  | _ :: _, [] => None
  end.

(** The longest run of characters of a class at the head of [s], and what
    follows it. *)
Fixpoint span (p : ascii -> bool) (s : str) : str * str :=
  match s with
  | c :: rest =>
      if p c then let (run, tl) := span p rest in (c :: run, tl)
      else ([], s)
  | [] => ([], [])
  end.

(** [ENCODED_PATTERN.match(s)]: the match anchored at the head of [s], as its
    two groups.  The greedy runs never have to give a character back: no
    class of the pattern contains the character that must follow it. *)
Definition match_at (s : str) : option (str * str) :=
  match strip_prefix (lit "{{ENC:") s with
  | None => None
  | Some s1 =>
      let (entity, s2) := span entity_char s1 in
      match entity, s2 with
      | _ :: _, c :: s3 =>
          if Ascii.eqb c ":" then
            let (body, s4) := span token_char s3 in
            let (pad, s5) := span equals_char s4 in
            match body, s5 with
            | _ :: _, c1 :: c2 :: _ =>
                if Ascii.eqb c1 "}" && Ascii.eqb c2 "}"
                then Some (entity, body ++ pad)
                else None
            | _, _ => None
            end
          else None
      | _, _ => None
      end
  end.

(** What a left-to-right scan for non-overlapping matches sees: a character
    outside every match, or a match with its two groups. *)
Inductive piece :=
| Plain (c : ascii)
| Found (entity token : str).

(** The scan of [re]'s [sub], [findall] and [finditer]: try the pattern at
    each position; after a match resume behind it ([skip] counts the
    characters of the current match still to pass over). *)
Fixpoint scan_from (skip : nat) (s : str) : list piece :=
  match s with
  | [] => []
  | c :: rest =>
      match skip with
      | S k => scan_from k rest
      | O =>
          match match_at (c :: rest) with
          | Some (entity, token) =>
              Found entity token
                :: scan_from (pred (List.length (safe_token entity token))) rest
          | None => Plain c :: scan_from 0 rest
          end
      end
  end.

Definition scan (s : str) : list piece := scan_from 0 s.

(** [ENCODED_PATTERN.sub(repl, s)], with [repl] reading groups 1 and 2. *)
Definition ENCODED_PATTERN_sub (repl : str -> str -> str) (s : str) : str :=
  flat_map (fun p => match p with
                     | Plain c => [c]
                     | Found entity token => repl entity token
                     end) (scan s).

(** [ENCODED_PATTERN.findall(s)] *)
Definition ENCODED_PATTERN_findall (s : str) : list (str * str) :=
  flat_map (fun p => match p with
                     | Plain _ => []
                     | Found entity token => [(entity, token)]
                     end) (scan s).

(** [ENCODED_PATTERN.finditer(s)]: groups 1 and 2 with [start()] and
    [end()]. *)
Fixpoint spans_from (pos : Z) (ps : list piece) : list (str * str * Z * Z) :=
  match ps with
  | [] => []
  | Plain _ :: rest => spans_from (pos + 1) rest
  | Found entity token :: rest =>
      let stop := pos + len (safe_token entity token) in
      (entity, token, pos, stop) :: spans_from stop rest
  end.

Definition ENCODED_PATTERN_finditer (s : str) : list (str * str * Z * Z) :=
  spans_from 0 (scan s).

(** ** The replacement loops *)

(** [sorted(matches, key=lambda m: m.start, reverse=True)].  Python's sort is
    stable, also under [reverse=True]: matches with the same [start] keep the
    order they have in [matches]. *)
Fixpoint insert_by_start (m : PiiMatch) (l : list PiiMatch) : list PiiMatch :=
  match l with
  | [] => [m]
  | x :: l' =>
      if start x <=? start m then m :: l else x :: insert_by_start m l'
  end.

Definition matches_sorted (matches : list PiiMatch) : list PiiMatch :=
  fold_right insert_by_start [] matches.

(** [buf[: m.start] + replacement + buf[m.end :]] *)
Definition splice (buf : str) (m : PiiMatch) (replacement : str) : str :=
  slice_to buf (start m) ++ replacement ++ slice_from buf (end_ m).

(** The loop of [apply_encryption_replacements]; the [i]-th call of
    [encrypt_text] draws [rnd i]. *)
Fixpoint encryption_loop (C : Cipher) (buf : str) (ms : list PiiMatch)
  (key_b64 : key C) (rnd : nat -> nonce C) (i : nat) : option str :=
  match ms with
  | [] => Some buf
  | m :: rest =>
      match encrypt_text C (text m) key_b64 (rnd i) with
      | None => None
      | Some ciphertext =>
          encryption_loop C
            (splice buf m (safe_token (entity_type m) ciphertext))
            rest key_b64 rnd (S i)
      end
  end.

Definition apply_encryption_replacements (C : Cipher) (md_text : str)
  (matches : list PiiMatch) (key_b64 : key C) (rnd : nat -> nonce C)
  : option str :=
  encryption_loop C md_text (matches_sorted matches) key_b64 rnd 0.

(** [f"[{m.entity_type}_{hash_suffix}]"] with
    [hash_suffix = abs(hash(m.text)) % 10000]; [hash] is the built-in hash
    of the running interpreter. *)
Definition placeholder (hash : str -> Z) (m : PiiMatch) : str :=
  let hash_suffix := Z.abs (hash (text m)) mod 10000 in
  lit "[" ++ entity_type m ++ lit "_" ++ str_of_int hash_suffix ++ lit "]".

Fixpoint anonymization_loop (hash : str -> Z) (buf : str)
  (ms : list PiiMatch) : str :=
  match ms with
  | [] => buf
  | m :: rest =>
      anonymization_loop hash (splice buf m (placeholder hash m)) rest
  end.

Definition apply_anonymization_replacements (hash : str -> Z) (md_text : str)
  (matches : list PiiMatch) : str :=
  anonymization_loop hash md_text (matches_sorted matches).

(** ** Decryption *)

Definition _replace (C : Cipher) (key_b64 : key C) (entity token : str)
  : str :=
  match decrypt_text C token key_b64 with
  | Some plain => plain
  | None => safe_token entity token   (* [match.group(0)] *)
  end.

Definition decrypt_markers (C : Cipher) (md_text : str) (key_b64 : key C)
  : str :=
  ENCODED_PATTERN_sub (_replace C key_b64) md_text.

(** ** The Presidio analyzer, as the program uses it *)

Inductive spacy_model := en_core_web_lg | en_core_web_sm.

Record RecognizerResult := {
  r_start : Z;
  r_end : Z;
  r_entity_type : str;
  r_score : option float
}.

Record Detector := {
  analyzer : Type;
  (** the [from presidio_analyzer import ...] statements at the head of
      [build_analyzer] and [analyze_pii] *)
  imported : result unit;
  (** [AnalyzerEngine(nlp_engine=..., supported_languages=["en"])] on the
      engine the provider creates for a model *)
  engine_with : spacy_model -> result analyzer;
  (** [AnalyzerEngine()] *)
  engine_default : result analyzer;
  (** [analyzer.analyze(text=..., language="en", entities=...)] *)
  analyze : analyzer -> str -> option (list str)
            -> result (list RecognizerResult)
}.

Section Analysis.

Variable D : Detector.

(** One [try] block of [build_analyzer]: construct, then warm up. *)
Definition warmed_up (built : result (analyzer D)) : result (analyzer D) :=
  a <- built ;;
  _ <- analyze D a (lit "warm up") None ;;
  Ok a.

Definition build_analyzer : result (analyzer D) :=
  _ <- imported D ;;
  match warmed_up (engine_with D en_core_web_lg) with
  | Ok a => Ok a
  | Raise _ =>
      match warmed_up (engine_with D en_core_web_sm) with
      | Ok a => Ok a
      | Raise _ =>
          match warmed_up (engine_default D) with
          | Ok a => Ok a
          | Raise _ => Raise RuntimeError
          end
      end
  end.

(** [r.score or 0.0] *)
Definition score_or_zero (s : option float) : float :=
  match s with
  | Some f => if PrimFloat.eqb f 0%float then 0%float else f
  | None => 0%float
  end.

Fixpoint to_matches (md_text : str) (line_starts : list Z)
  (results : list RecognizerResult) : result (list PiiMatch) :=
  match results with
  | [] => Ok []
  | r :: rest =>
      match offset_to_line_col (r_start r) line_starts with
      | None => Raise IndexError
      | Some (l, c) =>
          tl <- to_matches md_text line_starts rest ;;
          Ok (mkPiiMatch (r_start r) (r_end r) (r_entity_type r)
                (score_or_zero (r_score r))
                (slice md_text (r_start r) (r_end r)) l c :: tl)
      end
  end.

Definition analyze_pii (md_text : str) (entities : option (list str))
  : result (list PiiMatch) :=
  _ <- imported D ;;
  a <- build_analyzer ;;
  results <- analyze D a md_text entities ;;
  to_matches md_text (calculate_line_col_map md_text) results.

End Analysis.

(** ** The two commands of [main], from the text read to what is written *)

Inductive mode := encrypt | anonymize.

(** What the encrypt command leaves behind when it returns 0: the output
    document, the report and the audit event. *)
Record encrypt_outcome := {
  out_md : str;
  report : list PiiMatch;
  pii_total : Z
}.

Section Commands.

Variable C : Cipher.
Variable D : Detector.
(** the built-in [hash] of this interpreter process *)
Variable hash : str -> Z.

(** The [if args.mode == "encrypt"] step that produces [processed_text]. *)
Definition process (md : mode) (md_text : str) (matches : list PiiMatch)
  (key_b64 : option (key C)) (rnd : nat -> nonce C) : result str :=
  match md, key_b64 with
  | encrypt, Some k =>
      match apply_encryption_replacements C md_text matches k rnd with
      | Some processed_text => Ok processed_text
      | None => Raise External
      end
  | encrypt, None => Raise External
  | anonymize, _ => Ok (apply_anonymization_replacements hash md_text matches)
  end.

(** The encrypt command after the input is read.  An exception that leaves
    [main] ends the program before anything is written. *)
Definition main_encrypt (md : mode) (args_key : option str)
  (entities : option (list str)) (md_text : str)
  (key_rnd : nonce C) (rnd : nat -> nonce C) : result encrypt_outcome :=
  key_b64 <- match md with
             | encrypt =>
                 k <- ensure_fernet_key C args_key key_rnd ;; Ok (Some k)
             | anonymize => Ok None
             end ;;
  matches <- analyze_pii D md_text entities ;;
  processed_text <- process md md_text matches key_b64 rnd ;;
  Ok {| out_md := processed_text;
        report := matches;
        pii_total := Z.of_nat (List.length matches) |}.

(** What the decrypt command leaves behind: its exit status, the document it
    wrote and the [markers_decrypted] field of its audit event. *)
Record decrypt_outcome := {
  exit_status : Z;
  decrypted_md : option str;
  markers_decrypted : option Z
}.

Definition main_decrypt (args_key : str) (md_text : str) (key_rnd : nonce C)
  : decrypt_outcome :=
  match ensure_fernet_key C (Some args_key) key_rnd with
  | Raise _ =>
      {| exit_status := 1; decrypted_md := None; markers_decrypted := None |}
  | Ok key_bytes =>
      let encrypted_markers :=
        Z.of_nat (List.length (ENCODED_PATTERN_findall md_text)) in
      let decrypted_text := decrypt_markers C md_text key_bytes in
      {| exit_status := 0;
         decrypted_md := Some decrypted_text;
         markers_decrypted := Some encrypted_markers |}
  end.

End Commands.

(** ** Properties of match sets, markers and ciphers *)

(** Two half-open spans share an offset. *)
Definition intersects (a b : PiiMatch) : bool :=
  Z.max (start a) (start b) <? Z.min (end_ a) (end_ b).

(** A symmetric test holds between any two entries of a list. *)
Fixpoint pairwise {A : Type} (r : A -> A -> bool) (l : list A) : bool :=
  match l with
  | [] => true
  | x :: rest => forallb (r x) rest && pairwise r rest
  end.

Definition pairwise_disjoint (ms : list PiiMatch) : bool :=
  pairwise (fun a b => negb (intersects a b)) ms.

(** [0 <= start <= end <= len(md_text)] *)
Definition in_bounds (md_text : str) (m : PiiMatch) : bool :=
  (0 <=? start m) && (start m <=? end_ m) && (end_ m <=? len md_text).

(** The captured text is the live substring. *)
Definition captured (md_text : str) (m : PiiMatch) : bool :=
  PyStr.eqb (text m) (slice md_text (start m) (end_ m)).

Definition valid_match (md_text : str) (m : PiiMatch) : bool :=
  in_bounds md_text m && captured md_text m.

Definition valid_matches (md_text : str) (ms : list PiiMatch) : bool :=
  forallb (valid_match md_text) ms && pairwise_disjoint ms.

Definition distinct_starts (ms : list PiiMatch) : bool :=
  pairwise (fun a b => negb (start a =? start b)) ms.

Definition nonempty_span (m : PiiMatch) : bool := start m <? end_ m.

Definition total_len (l : list str) : Z :=
  fold_right (fun s acc => len s + acc) 0 l.

(** The markers the encryption loop inserts, in the order it inserts them;
    [None] when a call of the cipher raises. *)
Fixpoint inserted_markers (C : Cipher) (ms : list PiiMatch) (key_b64 : key C)
  (rnd : nat -> nonce C) (i : nat) : option (list str) :=
  match ms with
  | [] => Some []
  | m :: rest =>
      match encrypt_text C (text m) key_b64 (rnd i) with
      | None => None
      | Some ciphertext =>
          option_map (cons (safe_token (entity_type m) ciphertext))
            (inserted_markers C rest key_b64 rnd (S i))
      end
  end.

(** Both loops, with the replacement of each match given beside it. *)
Fixpoint splice_all (buf : str) (l : list (PiiMatch * str)) : str :=
  match l with
  | [] => buf
  | (m, replacement) :: rest => splice_all (splice buf m replacement) rest
  end.

(** Executable forms of the two groups' patterns. *)
Definition entity_ok (e : str) : bool :=
  match e with
  | [] => false
  | _ => forallb entity_char e
  end.

Definition token_ok (t : str) : bool :=
  let (body, pad) := span token_char t in
  match body with
  | [] => false
  | _ => forallb equals_char pad
  end.

(** No substring of [s] matches the marker pattern. *)
Definition marker_free (s : str) : Prop :=
  forall pre m post, s = pre ++ m ++ post -> ~ Re.matches ENCODED_PATTERN m.

(** A document laid out as plain text and markers: each segment is a stretch
    of plain text followed by one marker; [tail] is the text after the last
    marker. *)
Definition segment := (str * (str * str))%type.

Fixpoint document (segs : list segment) (tail : str) : str :=
  match segs with
  | [] => tail
  | (plain, (entity, token)) :: rest =>
      plain ++ safe_token entity token ++ document rest tail
  end.

(** The same document with every marker replaced. *)
Fixpoint substituted (repl : str -> str -> str) (segs : list segment)
  (tail : str) : str :=
  match segs with
  | [] => tail
  | (plain, (entity, token)) :: rest =>
      plain ++ repl entity token ++ substituted repl rest tail
  end.

(** Where [finditer] must find the markers of a document that starts at
    offset [pos]. *)
Fixpoint marker_spans (pos : Z) (segs : list segment)
  : list (str * str * Z * Z) :=
  match segs with
  | [] => []
  | (plain, (entity, token)) :: rest =>
      let from := pos + len plain in
      let stop := from + len (safe_token entity token) in
      (entity, token, from, stop) :: marker_spans stop rest
  end.

Definition well_formed (segs : list segment) (tail : str) : Prop :=
  Forall (fun sg => marker_free (fst sg)
                    /\ Re.matches entity_re (fst (snd sg))
                    /\ Re.matches token_re (snd (snd sg))) segs
  /\ marker_free tail.

Definition span_entity (x : str * str * Z * Z) : str := fst (fst (fst x)).
Definition span_token (x : str * str * Z * Z) : str := snd (fst (fst x)).
Definition span_start (x : str * str * Z * Z) : Z := snd (fst x).
Definition span_end (x : str * str * Z * Z) : Z := snd x.

(** The pieces the scan must see in a document. *)
Definition pieces (segs : list segment) : list piece :=
  flat_map (fun sg => map Plain (fst sg)
                      ++ [Found (fst (snd sg)) (snd (snd sg))]) segs.

Definition brace : ascii := "{"%char.

(** What may follow a stretch of plain text: the end of the document or the
    two opening braces of a marker. *)
Definition boundary (w : str) : Prop :=
  w = [] \/ exists w', w = brace :: brace :: w'.

(** The rewritten part of a buffer during the encryption loop: markers, each
    followed by the plain text up to the next one. *)
Definition trailing := list ((str * str) * str).

Definition trailing_text (l : trailing) : str :=
  flat_map (fun x => safe_token (fst (fst x)) (snd (fst x)) ++ snd x) l.

Definition trailing_sub (repl : str -> str -> str) (l : trailing) : str :=
  flat_map (fun x => repl (fst (fst x)) (snd (fst x)) ++ snd x) l.

(** The contract of the cipher: under a key [Fernet] accepts, encryption
    returns a token of the pattern's second group, and decryption under the
    same key gives the plaintext back. *)
Record lawful (C : Cipher) (usable : key C -> Prop) : Prop := {
  encrypt_returns : forall p k r,
    usable k -> exists tok, encrypt_text C p k r = Some tok;
  encrypt_token : forall p k r tok,
    encrypt_text C p k r = Some tok -> Re.matches token_re tok;
  decrypt_encrypt : forall p k r tok,
    encrypt_text C p k r = Some tok -> decrypt_text C tok k = Some p
}.

(** The number of markers of [md_text] whose decryption fails under a key. *)
Definition decrypt_failures (C : Cipher) (md_text : str) (key_b64 : key C)
  : Z :=
  Z.of_nat (List.length
    (filter (fun et => match decrypt_text C (snd et) key_b64 with
                       | Some _ => false
                       | None => true
                       end) (ENCODED_PATTERN_findall md_text))).

(** ** A small cipher to run the program on

    Keys are single bytes; a token is the hexadecimal form of the key byte
    followed by the plaintext, so that decryption under another key fails. *)

Module Hex.

Definition digit (n : N) : ascii :=
  if (n <? 10)%N then ascii_of_N (48 + n) else ascii_of_N (87 + n).

Definition value (c : ascii) : option N :=
  let n := N_of_ascii c in
  if in_range 48 57 c then Some (n - 48)%N
  else if in_range 97 102 c then Some (n - 87)%N
  else None.

Definition of_byte (c : ascii) : str :=
  let n := N_of_ascii c in [digit (n / 16); digit (n mod 16)].

Definition encode (s : str) : str := flat_map of_byte s.

Fixpoint decode (s : str) : option str :=
  match s with
  | [] => Some []
  | [_] => None
  | a :: b :: rest =>
      match value a, value b, decode rest with
      | Some x, Some y, Some tl => Some (ascii_of_N (16 * x + y) :: tl)
      | _, _, _ => None
      end
  end.

Definition cipher : Cipher := {|
  key := ascii;
  nonce := unit;
  b64_normalize := fun s => match s with [c] => Some c | _ => None end;
  generate_key := fun _ => "K"%char;
  encrypt_text := fun p k _ => Some (encode (k :: p));
  decrypt_text := fun tok k =>
    match decode tok with
    | Some (k' :: p) => if Ascii.eqb k k' then Some p else None
    | _ => None
    end
|}.

End Hex.

(** Two interpreters with different hash seeds, and a detector that is
    installed and one that is not. *)
Definition hash_a (s : str) : Z := len s.
Definition hash_b (s : str) : Z := len s + 1.

Definition fixed_detector (found : list RecognizerResult) : Detector := {|
  analyzer := unit;
  imported := Ok tt;
  engine_with := fun _ => Ok tt;
  engine_default := Ok tt;
  analyze := fun _ _ _ => Ok found
|}.

Definition missing_detector : Detector := {|
  analyzer := unit;
  imported := Ok tt;
  engine_with := fun _ => Raise External;
  engine_default := Raise External;
  analyze := fun _ _ _ => Ok []
|}.

(** ** Notions used in the proofs *)

Definition starts_ge (a b : PiiMatch) : Prop := start b <= start a.
Definition starts_gt (a b : PiiMatch) : Prop := start b < start a.

Definition span_total (ms : list PiiMatch) : Z :=
  fold_right (fun m acc => (end_ m - start m) + acc) 0 ms.

(** The matches of a descending list lie one below the other under [hi]. *)
Fixpoint chained (hi : Z) (ds : list PiiMatch) : Prop :=
  match ds with
  | [] => True
  | d :: rest =>
      0 <= start d /\ start d <= end_ d /\ end_ d <= hi
      /\ chained (start d) rest
  end.

Definition trailing_ok (l : trailing) : Prop :=
  Forall (fun x => entity_ok (fst (fst x)) = true
                   /\ token_ok (snd (fst x)) = true
                   /\ marker_free (snd x)) l.

(** The buffer during the encryption loop: the text below [hi] is untouched,
    and what follows decrypts to the text from [hi] on. *)
Definition restores (C : Cipher) (key_b64 : key C) (md_text : str) (hi : Z)
  (l : trailing) : Prop :=
  0 <= hi <= len md_text
  /\ trailing_ok l
  /\ trailing_sub (_replace C key_b64) l = slice_from md_text hi.

(** A text of two lines. *)
Definition two_lines : str := lit "ab" ++ newline :: lit "cd".

(** A match as [analyze_pii] builds it on a text of one line. *)
Definition detected (s e : Z) (entity txt : string) : PiiMatch :=
  mkPiiMatch s e (lit entity) 0.5%float (lit txt) 1 (s + 1).

(** ** Further notions: line index, analysis, layout of a rewritten text *)

(** The number of newlines in a text. *)
Definition newlines (s : str) : nat := count_occ ascii_dec s newline.

(** The match [analyze_pii] builds from one result of the analyzer. *)
Definition built_from (md_text : str) (r : RecognizerResult) (m : PiiMatch)
  : Prop :=
  start m = r_start r
  /\ end_ m = r_end r
  /\ entity_type m = r_entity_type r
  /\ score m = score_or_zero (r_score r)
  /\ text m = slice md_text (r_start r) (r_end r)
  /\ offset_to_line_col (r_start r) (calculate_line_col_map md_text)
     = Some (line m, column m).

(** A rewritten text read from left to right: from [from] on, the text up to
    each match, then the replacement of the match, and after the last match
    the rest of the text. *)
Fixpoint laid_out (md_text : str) (from : Z) (l : list (PiiMatch * str))
  : str :=
  match l with
  | [] => slice_from md_text from
  | (m, replacement) :: rest =>
      slice md_text from (start m) ++ replacement
      ++ laid_out md_text (end_ m) rest
  end.

(** Matches in document order between [from] and [upto]: none is empty and
    each starts at or behind the end of the one before it. *)
Fixpoint in_order (from : Z) (ms : list PiiMatch) (upto : Z) : Prop :=
  match ms with
  | [] => from <= upto
  | m :: rest =>
      from <= start m /\ start m < end_ m /\ in_order (end_ m) rest upto
  end.

Definition starts_lt (a b : PiiMatch) : Prop := start a < start b.

(** [[0-9]] *)
Definition digit_char (c : ascii) : bool := in_range 48 57 c.

(** One to four decimal digits. *)
Definition short_number (d : str) : bool :=
  (1 <=? len d) && (len d <=? 4) && forallb digit_char d.

(** ** The audit event of the encrypt command *)

(** A [dict] with [str] keys and [int] values, in insertion order. *)
Definition dict := list (str * Z).

(** [d.get(k, default)] *)
Fixpoint dict_get (d : dict) (k : str) (default : Z) : Z :=
  match d with
  | [] => default
  | (k', v) :: rest => if PyStr.eqb k' k then v else dict_get rest k default
  end.

(** [d[k] = v] *)
Fixpoint dict_set (d : dict) (k : str) (v : Z) : dict :=
  match d with
  | [] => [(k, v)]
  | (k', v') :: rest =>
      if PyStr.eqb k' k then (k', v) :: rest
      else (k', v') :: dict_set rest k v
  end.

(** The loop that fills [entity_counts] in [main]. *)
Definition entity_counts (matches : list PiiMatch) : dict :=
  fold_left
    (fun counts m =>
       dict_set counts (entity_type m)
         (dict_get counts (entity_type m) 0 + 1))
    matches [].

Definition dict_total (d : dict) : Z :=
  fold_right (fun kv acc => snd kv + acc) 0 d.

Definition str_eq_dec : forall a b : str, {a = b} + {a <> b} :=
  list_eq_dec ascii_dec.

(** The number of matches of an entity type. *)
Definition matches_of_type (t : str) (matches : list PiiMatch) : nat :=
  count_occ str_eq_dec (map entity_type matches) t.

(** A span the analyzer returns lies within the text, is not empty and has
    an entity type of the pattern's first group. *)
Definition result_ok (md_text : str) (r : RecognizerResult) : Prop :=
  0 <= r_start r /\ r_start r < r_end r /\ r_end r <= len md_text
  /\ Re.matches entity_re (r_entity_type r).

(** Two spans the analyzer returns share no offset. *)
Definition results_apart (a b : RecognizerResult) : bool :=
  negb (Z.max (r_start a) (r_start b) <? Z.min (r_end a) (r_end b)).

(** ** PDF to Markdown: [pdf_to_md.py] *)

Definition cr : ascii := "013"%char.

(** [s.replace(old, new)] for a non-empty [old]: the occurrences of [old]
    are taken from left to right and do not overlap ([skip] counts the
    characters of the current occurrence still to pass over). *)
Fixpoint replace_from (skip : nat) (old new s : str) : str :=
  match s with
  | [] => []
  | c :: rest =>
      match skip with
      | S k => replace_from k old new rest
      | O =>
          match strip_prefix old (c :: rest) with
          | Some _ => new ++ replace_from (pred (List.length old)) old new rest
          | None => c :: replace_from 0 old new rest
          end
      end
  end.

Definition str_replace (old new s : str) : str := replace_from 0 old new s.

(** [s.split(sep)] for a separator of one character; the result is never
    empty. *)
Fixpoint str_split (sep : ascii) (s : str) : list str :=
  match s with
  | [] => [[]]
  | c :: rest =>
      if Ascii.eqb c sep then [] :: str_split sep rest
      else match str_split sep rest with
           | l :: ls => (c :: l) :: ls
           | [] => [[c]]
           end
  end.

(** [sep.join(parts)] *)
Fixpoint str_join (sep : str) (parts : list str) : str :=
  match parts with
  | [] => []
  | [l] => l
  | l :: rest => l ++ sep ++ str_join sep rest
  end.

(** The characters [str.strip] removes, among the first 256 code points. *)
Definition is_space (c : ascii) : bool :=
  in_range 9 13 c || in_range 28 32 c
  || Ascii.eqb c "133" || Ascii.eqb c "160".

Fixpoint rstrip (s : str) : str :=
  match s with
  | [] => []
  | c :: rest =>
      match rstrip rest with
      | [] => if is_space c then [] else [c]
      | kept => c :: kept
      end
  end.

Fixpoint lstrip (s : str) : str :=
  match s with
  | [] => []
  | c :: rest => if is_space c then lstrip rest else s
  end.

Definition strip (s : str) : str := lstrip (rstrip s).

(** [re.sub(r"\n{3,}", "\n\n", s)]: a run of newlines is matched whole, so
    every run of three or more becomes two and shorter runs stay; [run] is
    the length of the run being read. *)
Fixpoint collapse_newlines (run : nat) (s : str) : str :=
  match s with
  | [] => repeat newline (Nat.min run 2)
  | c :: rest =>
      if Ascii.eqb c newline then collapse_newlines (S run) rest
      else repeat newline (Nat.min run 2) ++ c :: collapse_newlines 0 rest
  end.

Definition _normalize_text (text0 : str) : str :=
  let text1 := str_replace [cr] [newline]
                 (str_replace [cr; newline] [newline] text0) in
  let text2 := str_join [newline] (map rstrip (str_split newline text1)) in
  let text3 := collapse_newlines 0 text2 in
  strip text3 ++ [newline].

(** The three extractors of a PDF's text; each returns [None] when its
    library is missing or raises. *)
Record PdfBackends := {
  extract_text_with_pymupdf : str -> option str;
  extract_text_with_pdfminer : str -> option str;
  extract_text_with_pypdf : str -> option str
}.

(** [if text:] *)
Definition truthy (text0 : option str) : option str :=
  match text0 with
  | Some (_ :: _) => text0
  | _ => None
  end.

(** A result [if text:] rejects. *)
Definition empty_result (r : option str) : Prop := r = None \/ r = Some [].

Definition extract_pdf_text (B : PdfBackends) (pdf_path : str) : result str :=
  match truthy (extract_text_with_pymupdf B pdf_path) with
  | Some t => Ok t
  | None =>
      match truthy (extract_text_with_pdfminer B pdf_path) with
      | Some t => Ok t
      | None =>
          match truthy (extract_text_with_pypdf B pdf_path) with
          | Some t => Ok t
          | None => Raise RuntimeError
          end
      end
  end.

(** No white space other than a newline stands directly before a newline or
    at the end; [prev] tells whether such a character stands before [s]. *)
Fixpoint lines_clean (prev : bool) (s : str) : bool :=
  match s with
  | [] => negb prev
  | c :: rest =>
      if Ascii.eqb c newline then negb prev && lines_clean false rest
      else lines_clean (is_space c) rest
  end.

(** No run of newlines is longer than two; [run] newlines stand directly
    before [s]. *)
Fixpoint runs_short (run : nat) (s : str) : bool :=
  match s with
  | [] => (run <=? 2)%nat
  | c :: rest =>
      if Ascii.eqb c newline then runs_short (S run) rest
      else (run <=? 2)%nat && runs_short 0 rest
  end.

(** * Proofs *)

(** ** Slicing *)

Lemma len_nonneg s : 0 <= len s.
Proof. unfold len. lia. Qed.

Lemma len_app a b : len (a ++ b) = len a + len b.
Proof. unfold len. rewrite length_app. lia. Qed.

(** Arithmetic over lengths: every length in sight is non-negative. *)
Ltac len_lia :=
  repeat match goal with
         | |- context [len ?s] =>
             lazymatch goal with
             | _ : 0 <= len s |- _ => fail
             | _ => pose proof (len_nonneg s)
             end
         | _ : context [len ?s] |- _ =>
             lazymatch goal with
             | _ : 0 <= len s |- _ => fail
             | _ => pose proof (len_nonneg s)
             end
         end;
  lia.

Lemma clamp_range i n : 0 <= n -> 0 <= clamp i n <= n.
Proof.
  intros Hn. unfold clamp. destruct (Z.ltb_spec i 0); lia.
Qed.

Lemma clamp_id i n : 0 <= i <= n -> clamp i n = i.
Proof.
  intros H. unfold clamp. destruct (Z.ltb_spec i 0); lia.
Qed.

Lemma slice_to_firstn s i :
  0 <= i <= len s -> slice_to s i = firstn (Z.to_nat i) s.
Proof. intros H. unfold slice_to. rewrite clamp_id by exact H. reflexivity. Qed.

Lemma slice_from_skipn s i :
  0 <= i <= len s -> slice_from s i = skipn (Z.to_nat i) s.
Proof.
  intros H. unfold slice_from. rewrite clamp_id by exact H. reflexivity.
Qed.

Lemma slice_firstn_skipn s a b :
  0 <= a <= len s -> 0 <= b <= len s ->
  slice s a b = firstn (Z.to_nat b - Z.to_nat a) (skipn (Z.to_nat a) s).
Proof.
  intros Ha Hb. unfold slice. rewrite !clamp_id by assumption. reflexivity.
Qed.

Lemma len_slice_to s i : len (slice_to s i) = clamp i (len s).
Proof.
  pose proof (clamp_range i (len s) (len_nonneg s)).
  unfold slice_to, len in *. rewrite length_firstn. lia.
Qed.

Lemma len_slice_from s i : len (slice_from s i) = len s - clamp i (len s).
Proof.
  pose proof (clamp_range i (len s) (len_nonneg s)).
  unfold slice_from, len in *. rewrite length_skipn. lia.
Qed.

(** [s[a:b]] of a text laid out as [pre ++ mid ++ post] with [mid] at
    [a, b). *)
Lemma slice_middle pre mid post :
  slice (pre ++ mid ++ post) (len pre) (len pre + len mid) = mid.
Proof.
  rewrite slice_firstn_skipn.
  - unfold len. rewrite Nat2Z.id.
    replace (Z.to_nat (Z.of_nat (List.length pre) + Z.of_nat (List.length mid))
             - List.length pre)%nat with (List.length mid) by lia.
    rewrite skipn_app, skipn_all, Nat.sub_diag. cbn [skipn app].
    rewrite firstn_app, firstn_all, Nat.sub_diag. cbn [firstn].
    apply app_nil_r.
  - rewrite !len_app. len_lia.
  - rewrite !len_app. len_lia.
Qed.

Lemma slice_to_prefix pre post : slice_to (pre ++ post) (len pre) = pre.
Proof.
  rewrite slice_to_firstn.
  - unfold len. rewrite Nat2Z.id, firstn_app, firstn_all, Nat.sub_diag.
    cbn [firstn]. apply app_nil_r.
  - rewrite len_app. len_lia.
Qed.

Lemma slice_from_suffix pre post : slice_from (pre ++ post) (len pre) = post.
Proof.
  rewrite slice_from_skipn.
  - unfold len. rewrite Nat2Z.id, skipn_app, skipn_all, Nat.sub_diag.
    reflexivity.
  - rewrite len_app. len_lia.
Qed.

Lemma str_eqb_eq a b : PyStr.eqb a b = true <-> a = b.
Proof.
  unfold PyStr.eqb. destruct (list_eq_dec ascii_dec a b); split; congruence.
Qed.

Lemma slice_to_all s : slice_to s (len s) = s.
Proof.
  rewrite slice_to_firstn by len_lia.
  unfold len. rewrite Nat2Z.id. apply firstn_all.
Qed.

Lemma slice_from_all s : slice_from s (len s) = [].
Proof.
  rewrite slice_from_skipn by len_lia.
  unfold len. rewrite Nat2Z.id. apply skipn_all.
Qed.

Lemma slice_to_from s i : slice_to s i ++ slice_from s i = s.
Proof. apply firstn_skipn. Qed.

(** Slices are substrings. *)
Lemma slice_substring s a b :
  exists pre post, s = pre ++ slice s a b ++ post.
Proof.
  unfold slice.
  set (lo := Z.to_nat (clamp a (len s))).
  set (hi := Z.to_nat (clamp b (len s))).
  exists (firstn lo s), (skipn (hi - lo) (skipn lo s)).
  rewrite firstn_skipn, firstn_skipn. reflexivity.
Qed.

Lemma slice_to_substring s i : exists post, s = slice_to s i ++ post.
Proof. exists (slice_from s i). symmetry. apply slice_to_from. Qed.

Lemma slice_then_from s a b :
  0 <= a <= b -> b <= len s ->
  slice s a b ++ slice_from s b = slice_from s a.
Proof.
  intros Hab Hb. rewrite slice_firstn_skipn, !slice_from_skipn by lia.
  replace (Z.to_nat b) with ((Z.to_nat b - Z.to_nat a) + Z.to_nat a)%nat at 2
    by lia.
  rewrite <- skipn_skipn. apply firstn_skipn.
Qed.

(** Slicing a buffer whose first [hi] characters are still those of [s]. *)
Lemma slice_to_untouched s hi rest i :
  0 <= i <= hi -> hi <= len s ->
  slice_to (slice_to s hi ++ rest) i = slice_to s i.
Proof.
  intros Hi Hhi.
  assert (Hl : len (slice_to s hi) = hi)
    by (rewrite len_slice_to; apply clamp_id; lia).
  rewrite (slice_to_firstn (slice_to s hi ++ rest))
    by (rewrite len_app, Hl; len_lia).
  rewrite (slice_to_firstn s hi), (slice_to_firstn s i) by lia.
  rewrite firstn_app, firstn_firstn.
  replace (Nat.min (Z.to_nat i) (Z.to_nat hi)) with (Z.to_nat i) by lia.
  rewrite length_firstn.
  replace (Z.to_nat i - Nat.min (Z.to_nat hi) (List.length s))%nat
    with 0%nat by (unfold len in *; lia).
  cbn [firstn]. apply app_nil_r.
Qed.

Lemma slice_from_untouched s hi rest i :
  0 <= i <= hi -> hi <= len s ->
  slice_from (slice_to s hi ++ rest) i = slice s i hi ++ rest.
Proof.
  intros Hi Hhi.
  assert (Hl : len (slice_to s hi) = hi)
    by (rewrite len_slice_to; apply clamp_id; lia).
  rewrite (slice_from_skipn (slice_to s hi ++ rest))
    by (rewrite len_app, Hl; len_lia).
  rewrite (slice_to_firstn s hi), slice_firstn_skipn by lia.
  rewrite skipn_app, skipn_firstn_comm, length_firstn.
  replace (Z.to_nat i - Nat.min (Z.to_nat hi) (List.length s))%nat
    with 0%nat by (unfold len in *; lia).
  reflexivity.
Qed.

(** ** The line index *)

Lemma newline_ends_above pos s :
  Forall (fun x => pos < x) (newline_ends pos s).
Proof.
  revert pos; induction s as [|c rest IH]; intros pos; simpl.
  - constructor.
  - assert (H : Forall (fun x => pos < x) (newline_ends (pos + 1) rest)).
    { eapply Forall_impl; [|apply IH]. simpl; intros; lia. }
    destruct (Ascii.eqb c newline); [constructor; [lia|]|]; exact H.
Qed.

Lemma newline_ends_sorted pos s :
  StronglySorted Z.lt (newline_ends pos s).
Proof.
  revert pos; induction s as [|c rest IH]; intros pos; simpl.
  - constructor.
  - destruct (Ascii.eqb c newline); [|apply IH].
    constructor; [apply IH | apply newline_ends_above].
Qed.

Lemma line_starts_sorted md_text :
  StronglySorted Z.lt (calculate_line_col_map md_text).
Proof.
  constructor; [apply newline_ends_sorted | apply newline_ends_above].
Qed.

Lemma newline_ends_mem pos s k :
  nth_error s k = Some newline ->
  In (pos + Z.of_nat k + 1) (newline_ends pos s).
Proof.
  revert pos k; induction s as [|c rest IH]; intros pos [|k] H; simpl in *;
    try discriminate.
  - injection H as ->. rewrite Ascii.eqb_refl. left; lia.
  - specialize (IH (pos + 1) k H).
    replace (pos + Z.pos (Pos.of_succ_nat k) + 1)
      with (pos + 1 + Z.of_nat k + 1) by lia.
    destruct (Ascii.eqb c newline); [right|]; exact IH.
Qed.

(** In a strictly ascending list the order of the indices is the order of
    the entries. *)
Lemma sorted_nth_lt (ls : list Z) :
  StronglySorted Z.lt ls ->
  forall i j x y,
    nth_error ls i = Some x -> nth_error ls j = Some y ->
    (i < j)%nat -> x < y.
Proof.
  induction 1 as [|a l Hs IH Ha]; intros i j x y Hi Hj Hlt.
  - destruct i; discriminate.
  - destruct j as [|j]; [lia|]. simpl in Hj.
    destruct i as [|i]; simpl in Hi.
    + injection Hi as <-. rewrite Forall_forall in Ha.
      apply Ha. eapply nth_error_In; eauto.
    + eapply IH; eauto. lia.
Qed.

Lemma scan_lines_spec (ls : list Z) (offset : Z) :
  StronglySorted Z.lt ls ->
  forall i line_index,
    (scan_lines offset i line_index ls = line_index
     /\ Forall (fun x => offset < x) ls)
    \/ exists k s,
         scan_lines offset i line_index ls = (i + k)%nat
         /\ nth_error ls k = Some s /\ s <= offset
         /\ forall j s', nth_error ls j = Some s' -> s' <= offset ->
                         (j <= k)%nat.
Proof.
  induction 1 as [|a l Hs IH Ha]; intros i line_index; simpl.
  - left; split; [reflexivity | constructor].
  - destruct (Z.leb_spec a offset) as [Hle|Hgt].
    + right.
      destruct (IH (S i) i) as [[Hr Hall]|(k & s & Hr & Hk & Hs' & Hmax)].
      * exists 0%nat, a. rewrite Hr. repeat split; [lia | assumption |].
        intros [|j] s' Hj Hle'; [lia|]. simpl in Hj.
        rewrite Forall_forall in Hall.
        apply nth_error_In, Hall in Hj. lia.
      * exists (S k), s. rewrite Hr. repeat split; [lia | assumption.. |].
        intros [|j] s' Hj Hle'; [lia|]. simpl in Hj.
        specialize (Hmax j s' Hj Hle'). lia.
    + left; split; [reflexivity|]. constructor; [assumption|].
      eapply Forall_impl; [|exact Ha]. simpl; intros; lia.
Qed.

(** On an ascending index that starts at or below the offset, the scan
    stops at the last entry not above the offset. *)
Lemma offset_to_line_col_spec (ls : list Z) (offset : Z) :
  StronglySorted Z.lt ls ->
  (exists s0, nth_error ls 0 = Some s0 /\ s0 <= offset) ->
  exists k s,
    offset_to_line_col offset ls = Some (Z.of_nat k + 1, offset - s + 1)
    /\ nth_error ls k = Some s /\ s <= offset
    /\ forall j s', nth_error ls j = Some s' -> s' <= offset -> (j <= k)%nat.
Proof.
  intros Hs (s0 & H0 & Hle0). unfold offset_to_line_col.
  destruct (scan_lines_spec ls offset Hs 0%nat 0%nat)
    as [[_ Hall]|(k & s & Hr & Hk & Hle & Hmax)].
  - rewrite Forall_forall in Hall.
    apply nth_error_In, Hall in H0. lia.
  - exists k, s. rewrite Hr. simpl. rewrite Hk. auto.
Qed.

(** C6.  For an offset between 0 and the length of the text, the resolver
    returns the 1-indexed line of the last line start at or below the offset
    and the 1-indexed column counted from that line start; offset 0 is line 1,
    column 1, and the offset just behind a newline is column 1 of the line
    after the one the newline is on. *)
Theorem offset_resolution (md_text : str) (offset : Z) :
  0 <= offset <= len md_text ->
  let line_starts := calculate_line_col_map md_text in
  exists line col,
    offset_to_line_col offset line_starts = Some (line, col)
    /\ 1 <= line
    /\ (exists s, nth_error line_starts (Z.to_nat (line - 1)) = Some s
                  /\ s <= offset /\ col = offset - s + 1)
    /\ (forall i s, nth_error line_starts i = Some s -> s <= offset ->
                    Z.of_nat i + 1 <= line)
    /\ (offset = 0 -> line = 1 /\ col = 1)
    /\ (forall k, nth_error md_text k = Some newline ->
                  offset = Z.of_nat k + 1 ->
                  col = 1
                  /\ exists l c,
                       offset_to_line_col (Z.of_nat k) line_starts
                       = Some (l, c)
                       /\ line = l + 1).
Proof.
  intros [Hlo Hhi] line_starts.
  pose proof (line_starts_sorted md_text) as Hs. fold line_starts in Hs.
  assert (H0 : nth_error line_starts 0 = Some 0) by reflexivity.
  destruct (offset_to_line_col_spec line_starts offset Hs)
    as (k & s & Hr & Hk & Hle & Hmax); [exists 0; split; [exact H0 | lia]|].
  exists (Z.of_nat k + 1), (offset - s + 1).
  split; [exact Hr|]. split; [lia|]. split.
  { exists s. replace (Z.to_nat (Z.of_nat k + 1 - 1)) with k by lia. auto. }
  split.
  { intros i s' Hi Hle'. specialize (Hmax i s' Hi Hle'). lia. }
  split.
  { intros ->. destruct k as [|k].
    - rewrite H0 in Hk. injection Hk as <-. lia.
    - pose proof (sorted_nth_lt line_starts Hs 0%nat (S k) 0 s H0 Hk). lia. }
  intros n Hn ->.
  (* the line start the newline at [n] creates *)
  assert (Hin : In (Z.of_nat n + 1) line_starts).
  { right. apply (newline_ends_mem 0 md_text n Hn). }
  apply In_nth_error in Hin. destruct Hin as [j Hj].
  assert (Hjk : j = k).
  { pose proof (Hmax j _ Hj ltac:(lia)).
    destruct (Nat.eq_dec j k) as [|Hne]; [assumption|].
    pose proof (sorted_nth_lt line_starts Hs j k _ _ Hj Hk). lia. }
  subst j. rewrite Hk in Hj. injection Hj as ->.
  split; [lia|].
  destruct (offset_to_line_col_spec line_starts (Z.of_nat n) Hs)
    as (k' & s' & Hr' & Hk' & Hle' & Hmax');
    [exists 0; split; [exact H0 | lia]|].
  exists (Z.of_nat k' + 1), (Z.of_nat n - s' + 1). split; [exact Hr'|].
  destruct k as [|k]; [rewrite H0 in Hk; injection Hk; lia|].
  assert (exists p, nth_error line_starts k = Some p) as [p Hp].
  { destruct (nth_error line_starts k) eqn:E; [eauto|].
    apply nth_error_None in E.
    assert (nth_error line_starts (S k) <> None) by congruence.
    apply nth_error_Some in H. lia. }
  pose proof (sorted_nth_lt line_starts Hs k (S k) _ _ Hp Hk).
  pose proof (Hmax' k p Hp).
  destruct (Nat.lt_ge_cases k' (S k)) as [|Hge]; [lia|].
  destruct (Nat.eq_dec k' (S k)) as [->|].
  - rewrite Hk in Hk'. injection Hk'; lia.
  - pose proof (sorted_nth_lt line_starts Hs (S k) k' _ _ Hk Hk'). lia.
Qed.

Lemma offset_resolution_witness :
  0 <= 3 <= len two_lines
  /\ exists line col,
       offset_to_line_col 3 (calculate_line_col_map two_lines)
       = Some (line, col)
       /\ line = 2 /\ col = 1.
Proof.
  split; [vm_compute; split; discriminate|].
  destruct (offset_resolution two_lines 3)
    as (line & col & Hr & _ & _ & _ & _ & Hnl).
  - vm_compute. split; discriminate.
  - exists line, col. split; [exact Hr|].
    destruct (Hnl 2%nat eq_refl eq_refl) as (Hc & l & c & Hl & ->).
    vm_compute in Hl. injection Hl as <- <-. split; [reflexivity | exact Hc].
Defined.

(** ** The marker pattern *)

Module ReFacts.
Import Re.

Lemma lit_inv s x : matches (Lit s) x <-> x = s.
Proof.
  split; [inversion 1; reflexivity | intros ->; constructor].
Qed.

Lemma class_inv p x :
  matches (Class p) x -> exists c, x = [c] /\ p c = true.
Proof.
  inversion 1; subst; eauto.
Qed.

Lemma plus_class_inv p x :
  matches (Plus (Class p)) x <-> x <> [] /\ forallb p x = true.
Proof.
  split.
  - remember (Plus (Class p)) as r eqn:Er.
    induction 1 as [| | r s Hs _ | r s1 s2 Hs _ _ IH | | |];
      try discriminate; injection Er as ->;
      apply class_inv in Hs as (c & -> & Hc); simpl.
    + rewrite Hc. split; [discriminate | reflexivity].
    + destruct (IH eq_refl) as [_ Hall].
      rewrite Hc, Hall. split; [discriminate | reflexivity].
  - intros [Hne Hall]. induction x as [|c x IH]; [congruence|].
    simpl in Hall. apply andb_true_iff in Hall as [Hc Hx].
    destruct x as [|d x].
    + apply MPlus1. constructor; assumption.
    + apply (MPlusS (Class p) [c] (d :: x)).
      * constructor; assumption.
      * apply IH; [discriminate | assumption].
Qed.

Lemma star_class_inv p x :
  matches (Star (Class p)) x <-> forallb p x = true.
Proof.
  split.
  - remember (Star (Class p)) as r eqn:Er.
    induction 1 as [| | | | r | r s1 s2 Hs _ _ IH |];
      try discriminate; injection Er as ->.
    + reflexivity.
    + apply class_inv in Hs as (c & -> & Hc). simpl.
      rewrite Hc, (IH eq_refl). reflexivity.
  - induction x as [|c x IH]; intros Hall.
    + constructor.
    + simpl in Hall. apply andb_true_iff in Hall as [Hc Hx].
      apply (MStarS (Class p) [c] x); [constructor; assumption | auto].
Qed.

Lemma seq_inv r1 r2 x :
  matches (Seq r1 r2) x <->
  exists a b, x = a ++ b /\ matches r1 a /\ matches r2 b.
Proof.
  split.
  - inversion 1; subst; eauto.
  - intros (a & b & -> & Ha & Hb). constructor; assumption.
Qed.

End ReFacts.

Lemma entity_re_ok e : Re.matches entity_re e <-> entity_ok e = true.
Proof.
  unfold entity_re, entity_ok. rewrite ReFacts.plus_class_inv.
  destruct e; simpl; split; intros H.
  - destruct H as [H _]; congruence.
  - discriminate.
  - apply H.
  - split; [discriminate | exact H].
Qed.

Lemma span_spec p s :
  let (run, tl) := span p s in
  s = run ++ tl /\ forallb p run = true
  /\ match tl with [] => True | c :: _ => p c = false end.
Proof.
  induction s as [|c s IH]; simpl; [auto|].
  destruct (p c) eqn:Hc.
  - destruct (span p s) as [run tl]. destruct IH as (-> & Hall & Htl).
    simpl. rewrite Hc, Hall. auto.
  - simpl. auto.
Qed.

Lemma span_run p run tl :
  forallb p run = true ->
  match tl with [] => True | c :: _ => p c = false end ->
  span p (run ++ tl) = (run, tl).
Proof.
  intros Hall Htl. induction run as [|c run IH]; simpl in *.
  - destruct tl as [|c tl]; [reflexivity|]. simpl. rewrite Htl. reflexivity.
  - apply andb_true_iff in Hall as [Hc Hall].
    rewrite Hc, (IH Hall). reflexivity.
Qed.

(** A token is a non-empty run of token characters followed by padding. *)
Lemma token_ok_split t :
  token_ok t = true <->
  exists body pad,
    t = body ++ pad /\ body <> []
    /\ forallb token_char body = true /\ forallb equals_char pad = true.
Proof.
  unfold token_ok. split.
  - pose proof (span_spec token_char t) as H.
    destruct (span token_char t) as [body pad]. destruct H as (-> & Hb & _).
    destruct body as [|c body]; [discriminate|].
    intros Hp. exists (c :: body), pad. repeat split; auto; discriminate.
  - intros (body & pad & -> & Hne & Hb & Hp).
    rewrite (span_run token_char body pad Hb).
    + destruct body; [congruence | exact Hp].
    + destruct pad as [|c pad]; [exact I|].
      simpl in Hp. apply andb_true_iff in Hp as [Hc _].
      unfold equals_char in Hc. apply Ascii.eqb_eq in Hc. subst c. reflexivity.
Qed.

Lemma token_re_ok t : Re.matches token_re t <-> token_ok t = true.
Proof.
  unfold token_re. rewrite ReFacts.seq_inv, token_ok_split.
  split; intros (a & b & -> & Ha & Hb); exists a, b.
  - destruct (proj1 (ReFacts.plus_class_inv _ _) Ha) as [Hne Hall].
    apply ReFacts.star_class_inv in Hb. auto.
  - destruct Hb as (Hb & Hp). split; [reflexivity|].
    split; [apply ReFacts.plus_class_inv | apply ReFacts.star_class_inv]; auto.
Qed.

(** The strings the pattern matches are the markers [safe_token] writes for
    an entity type of group 1 and a token of group 2. *)
Lemma pattern_matches m :
  Re.matches ENCODED_PATTERN m <->
  exists entity token,
    m = safe_token entity token
    /\ entity_ok entity = true /\ token_ok token = true.
Proof.
  unfold ENCODED_PATTERN, safe_token. split.
  - intros H.
    apply ReFacts.seq_inv in H as (a1 & r1 & -> & H1 & H).
    apply ReFacts.seq_inv in H as (e & r2 & -> & He & H).
    apply ReFacts.seq_inv in H as (a2 & r3 & -> & H2 & H).
    apply ReFacts.seq_inv in H as (t & a3 & -> & Ht & H3).
    apply ReFacts.lit_inv in H1, H2, H3. subst.
    exists e, t. split; [reflexivity|].
    split; [apply entity_re_ok | apply token_re_ok]; assumption.
  - intros (e & t & -> & He & Ht).
    repeat (apply Re.MSeq); try apply Re.MLit.
    + apply entity_re_ok; assumption.
    + apply token_re_ok; assumption.
Qed.

Lemma strip_prefix_app p r : strip_prefix p (p ++ r) = Some r.
Proof.
  induction p as [|a p IH]; simpl; [destruct r; reflexivity|].
  rewrite Ascii.eqb_refl. exact IH.
Qed.

Lemma strip_prefix_inv p s r : strip_prefix p s = Some r -> s = p ++ r.
Proof.
  revert s; induction p as [|a p IH]; intros s H.
  - destruct s; simpl in H; injection H as <-; reflexivity.
  - destruct s as [|b s]; simpl in H; [discriminate|].
    destruct (Ascii.eqb_spec a b) as [->|]; [|discriminate].
    simpl. f_equal. auto.
Qed.

Lemma match_at_complete entity token rest :
  entity_ok entity = true -> token_ok token = true ->
  match_at (safe_token entity token ++ rest) = Some (entity, token).
Proof.
  intros He Ht. apply token_ok_split in Ht as (body & pad & -> & Hne & Hb & Hp).
  unfold match_at, safe_token. rewrite <- !app_assoc, strip_prefix_app.
  assert (He' : forallb entity_char entity = true)
    by (destruct entity; [discriminate | exact He]).
  rewrite (span_run entity_char entity _ He') by reflexivity.
  destruct entity as [|e0 entity]; [discriminate|].
  cbn [lit list_ascii_of_string app]. rewrite Ascii.eqb_refl.
  rewrite (span_run token_char body _ Hb).
  2:{ destruct pad as [|c pad]; [reflexivity|]. simpl in Hp.
      apply andb_true_iff in Hp as [Hc _]. apply Ascii.eqb_eq in Hc.
      subst c. reflexivity. }
  rewrite (span_run equals_char pad _ Hp) by reflexivity.
  destruct body as [|b0 body]; [congruence|]. reflexivity.
Qed.

Lemma match_at_sound s entity token :
  match_at s = Some (entity, token) ->
  exists rest,
    s = safe_token entity token ++ rest
    /\ entity_ok entity = true /\ token_ok token = true.
Proof.
  unfold match_at. destruct (strip_prefix (lit "{{ENC:") s) as [s1|] eqn:E1;
    [|discriminate].
  apply strip_prefix_inv in E1. subst s.
  pose proof (span_spec entity_char s1) as H1.
  destruct (span entity_char s1) as [e s2]. destruct H1 as (-> & He & _).
  destruct e as [|e0 e]; [discriminate|].
  destruct s2 as [|c s3]; [discriminate|].
  destruct (Ascii.eqb_spec c ":") as [->|]; [|discriminate].
  pose proof (span_spec token_char s3) as H3.
  destruct (span token_char s3) as [body s4]. destruct H3 as (-> & Hb & _).
  pose proof (span_spec equals_char s4) as H4.
  destruct (span equals_char s4) as [pad s5]. destruct H4 as (-> & Hp & _).
  destruct body as [|b0 body]; [discriminate|].
  destruct s5 as [|c1 [|c2 rest]]; try discriminate.
  destruct (Ascii.eqb_spec c1 "}") as [->|]; [|discriminate].
  destruct (Ascii.eqb_spec c2 "}") as [->|]; [|discriminate].
  simpl. intros H; injection H as <- <-.
  exists rest. split.
  - unfold safe_token. cbn [lit list_ascii_of_string app].
    repeat (rewrite <- app_assoc; cbn [app]). reflexivity.
  - split; [exact He|]. apply token_ok_split.
    exists (b0 :: body), pad. repeat split; auto; discriminate.
Qed.

(** The anchored match is the match of the pattern: it finds a marker at the
    head of the text exactly when the text starts with a string of the
    pattern, and returns the two groups of that string. *)
Lemma match_at_spec s entity token :
  match_at s = Some (entity, token) <->
  exists rest,
    s = safe_token entity token ++ rest
    /\ Re.matches entity_re entity /\ Re.matches token_re token.
Proof.
  split.
  - intros H. apply match_at_sound in H as (rest & E & He & Ht).
    exists rest. split; [exact E|].
    split; [apply entity_re_ok | apply token_re_ok]; assumption.
  - intros (rest & -> & He & Ht). apply match_at_complete.
    + apply entity_re_ok; exact He.
    + apply token_re_ok; exact Ht.
Qed.

(** At most one prefix of a text matches the pattern. *)
Lemma pattern_prefix_unique m1 m2 r1 r2 :
  Re.matches ENCODED_PATTERN m1 -> Re.matches ENCODED_PATTERN m2 ->
  m1 ++ r1 = m2 ++ r2 -> m1 = m2.
Proof.
  intros H1 H2 E.
  apply pattern_matches in H1 as (e1 & t1 & -> & He1 & Ht1).
  apply pattern_matches in H2 as (e2 & t2 & -> & He2 & Ht2).
  pose proof (match_at_complete e1 t1 r1 He1 Ht1) as M1.
  pose proof (match_at_complete e2 t2 r2 He2 Ht2) as M2.
  rewrite E, M2 in M1. injection M1 as -> ->. reflexivity.
Qed.

(** ** The scan *)

Lemma scan_from_skip u v :
  scan_from (List.length u) (u ++ v) = scan_from 0 v.
Proof.
  induction u as [|c u IH]; simpl; [reflexivity | exact IH].
Qed.

Lemma scan_marker entity token rest :
  entity_ok entity = true -> token_ok token = true ->
  scan (safe_token entity token ++ rest)
  = Found entity token :: scan rest.
Proof.
  intros He Ht. pose proof (match_at_complete entity token rest He Ht) as M.
  unfold scan. remember (safe_token entity token) as m eqn:Em.
  destruct m as [|c m]; [discriminate|].
  cbn [app scan_from]. cbn [app] in M. rewrite M.
  rewrite <- Em. cbn [List.length pred]. rewrite scan_from_skip. reflexivity.
Qed.

Lemma entity_char_not_brace c : entity_char c = true -> c <> brace.
Proof. intros H ->. discriminate. Qed.

Lemma token_char_not_brace c : token_char c = true -> c <> brace.
Proof. intros H ->. discriminate. Qed.

Lemma equals_char_not_brace c : equals_char c = true -> c <> brace.
Proof. intros H ->. discriminate. Qed.

Lemma forallb_not_brace p s :
  (forall c, p c = true -> c <> brace) ->
  forallb p s = true -> ~ In brace s.
Proof.
  intros Hp Hall Hin. rewrite forallb_forall in Hall.
  exact (Hp _ (Hall _ Hin) eq_refl).
Qed.

(** Behind its two opening braces a marker holds no brace. *)
Lemma safe_token_braces entity token :
  entity_ok entity = true -> token_ok token = true ->
  exists c inner,
    safe_token entity token = brace :: brace :: c :: inner
    /\ ~ In brace (c :: inner).
Proof.
  intros He Ht. apply token_ok_split in Ht as (body & pad & -> & _ & Hb & Hp).
  assert (He' : forallb entity_char entity = true)
    by (destruct entity; [discriminate | exact He]).
  exists "E"%char,
    (lit "NC:" ++ entity ++ lit ":" ++ (body ++ pad) ++ lit "}}").
  split; [reflexivity|].
  change ("E"%char :: lit "NC:" ++ ?x) with (lit "ENC:" ++ x).
  rewrite !in_app_iff. intros [H|[H|[H|[[H|H]|H]]]].
  - revert H. simpl. intuition discriminate.
  - exact (forallb_not_brace _ _ entity_char_not_brace He' H).
  - revert H. simpl. intuition discriminate.
  - exact (forallb_not_brace _ _ token_char_not_brace Hb H).
  - exact (forallb_not_brace _ _ equals_char_not_brace Hp H).
  - revert H. simpl. intuition discriminate.
Qed.

Lemma boundary_marker entity token rest :
  boundary (safe_token entity token ++ rest).
Proof. right. eexists. reflexivity. Qed.

Lemma marker_free_tail c g : marker_free (c :: g) -> marker_free g.
Proof.
  intros H pre m post ->. apply (H (c :: pre) m post). reflexivity.
Qed.

(** No match starts in marker-free text and runs over its boundary. *)
Lemma match_at_plain c g w :
  marker_free (c :: g) -> boundary w -> match_at ((c :: g) ++ w) = None.
Proof.
  intros Hfree Hw.
  destruct (match_at ((c :: g) ++ w)) as [[e t]|] eqn:M; [|reflexivity].
  exfalso. apply match_at_sound in M as (rest & E & He & Ht).
  apply app_eq_app in E as [x [[E1 E2]|[E1 E2]]].
  - (* the match ends inside the plain text *)
    apply (Hfree [] (safe_token e t) x); [exact E1|].
    apply pattern_matches. eauto.
  - (* the match runs into [w] *)
    destruct x as [|x0 x].
    { rewrite app_nil_r in E1.
      apply (Hfree [] (safe_token e t) []);
        [rewrite app_nil_r; symmetry; exact E1|].
      apply pattern_matches. eauto. }
    destruct Hw as [->|[w' ->]]; [discriminate|].
    injection E2 as <- E2.
    destruct (safe_token_braces e t He Ht) as (d & inner & Es & Hno).
    rewrite Es in E1. injection E1 as <- E1.
    destruct g as [|g0 g].
    + injection E1 as E1. rewrite <- E1 in E2.
      apply Hno. destruct x as [|x1 x].
      * discriminate.
      * injection E1 as <- _. injection E2 as <- _. left; reflexivity.
    + injection E1 as <- E1. apply Hno. rewrite E1.
      apply in_or_app. right. left. reflexivity.
Qed.

Lemma scan_plain g w :
  marker_free g -> boundary w -> scan (g ++ w) = map Plain g ++ scan w.
Proof.
  intros Hfree Hw. induction g as [|c g IH]; [reflexivity|].
  unfold scan. cbn [app scan_from map].
  pose proof (match_at_plain c g w Hfree Hw) as M. cbn [app] in M.
  rewrite M. f_equal. apply IH. eapply marker_free_tail; eauto.
Qed.

Lemma scan_document segs tail :
  well_formed segs tail ->
  scan (document segs tail) = pieces segs ++ map Plain tail.
Proof.
  intros [Hsegs Htail].
  induction Hsegs as [|[g [e t]] segs (Hg & He & Ht) _ IH].
  - simpl. rewrite <- (app_nil_r tail) at 1.
    rewrite scan_plain; [apply app_nil_r | exact Htail | left; reflexivity].
  - cbn [fst snd] in *. cbn [document pieces flat_map fst snd].
    apply entity_re_ok in He. apply token_re_ok in Ht.
    rewrite scan_plain; [|exact Hg | apply boundary_marker].
    rewrite scan_marker by assumption. fold (pieces segs).
    rewrite IH, <- !app_assoc. reflexivity.
Qed.

Lemma all_plain_no_match s :
  ENCODED_PATTERN_findall s = [] ->
  forall pre x, s = pre ++ x -> match_at x = None.
Proof.
  unfold ENCODED_PATTERN_findall, scan.
  induction s as [|c s IH]; intros H pre x E.
  - destruct pre; [|discriminate]. simpl in E. subst x. reflexivity.
  - cbn [scan_from] in H.
    destruct (match_at (c :: s)) as [[e t]|] eqn:M; [discriminate|].
    destruct pre as [|p pre].
    + simpl in E. subst x. exact M.
    + injection E as _ E. exact (IH H pre x E).
Qed.

(** A text is marker-free exactly when the scan finds nothing in it. *)
Lemma marker_free_iff s : marker_free s <-> ENCODED_PATTERN_findall s = [].
Proof.
  split.
  - intros H. unfold ENCODED_PATTERN_findall.
    rewrite <- (app_nil_r s), scan_plain by (auto; left; reflexivity).
    rewrite app_nil_r. induction s; [reflexivity|]. simpl.
    apply IHs. eapply marker_free_tail; eauto.
  - intros H pre m post E Hm.
    apply pattern_matches in Hm as (e & t & -> & He & Ht).
    pose proof (all_plain_no_match s H pre _ E) as M.
    rewrite (match_at_complete e t post He Ht) in M. discriminate.
Qed.

Lemma flat_map_plain {A} (f : str -> str -> list A) (k : ascii -> list A)
  (s : str) :
  flat_map (fun p => match p with
                     | Plain c => k c
                     | Found entity token => f entity token
                     end) (map Plain s)
  = flat_map k s.
Proof.
  induction s as [|c s IH]; simpl; [reflexivity | rewrite IH; reflexivity].
Qed.

Lemma flat_map_singleton (s : str) : flat_map (fun c => [c]) s = s.
Proof.
  induction s as [|c s IH]; simpl; [reflexivity | rewrite IH; reflexivity].
Qed.

Lemma flat_map_nil {A} (s : str) : flat_map (fun _ => @nil A) s = [].
Proof.
  induction s as [|c s IH]; simpl; [reflexivity | exact IH].
Qed.

Lemma sub_document repl segs tail :
  well_formed segs tail ->
  ENCODED_PATTERN_sub repl (document segs tail) = substituted repl segs tail.
Proof.
  intros H. unfold ENCODED_PATTERN_sub. rewrite (scan_document segs tail H).
  clear H. induction segs as [|[g [e t]] segs IH].
  - cbn [pieces flat_map app substituted].
    rewrite flat_map_plain. apply flat_map_singleton.
  - cbn [pieces flat_map substituted fst snd]. fold (pieces segs).
    rewrite <- !app_assoc, flat_map_app, flat_map_plain, flat_map_singleton.
    cbn [app flat_map]. rewrite IH. reflexivity.
Qed.

Lemma findall_document segs tail :
  well_formed segs tail ->
  ENCODED_PATTERN_findall (document segs tail) = map snd segs.
Proof.
  intros H. unfold ENCODED_PATTERN_findall. rewrite (scan_document segs tail H).
  clear H. induction segs as [|[g [e t]] segs IH].
  - cbn [pieces flat_map app map]. rewrite flat_map_plain. apply flat_map_nil.
  - cbn [pieces flat_map map fst snd]. fold (pieces segs).
    rewrite <- !app_assoc, flat_map_app, flat_map_plain, flat_map_nil.
    cbn [app flat_map]. rewrite IH. reflexivity.
Qed.

Lemma spans_from_plain pos s ps :
  spans_from pos (map Plain s ++ ps) = spans_from (pos + len s) ps.
Proof.
  revert pos; induction s as [|c s IH]; intros pos.
  - simpl. f_equal. unfold len. simpl. lia.
  - cbn [map app spans_from]. rewrite IH. f_equal.
    unfold len. cbn [List.length]. lia.
Qed.

Lemma finditer_document segs tail :
  well_formed segs tail ->
  ENCODED_PATTERN_finditer (document segs tail) = marker_spans 0 segs.
Proof.
  intros H. unfold ENCODED_PATTERN_finditer.
  rewrite (scan_document segs tail H). clear H. generalize 0.
  induction segs as [|[g [e t]] segs IH]; intros pos.
  - cbn [pieces flat_map app marker_spans].
    rewrite <- (app_nil_r (map Plain tail)), spans_from_plain. reflexivity.
  - cbn [pieces flat_map marker_spans fst snd]. fold (pieces segs).
    rewrite <- !app_assoc, spans_from_plain. cbn [app spans_from].
    rewrite IH. reflexivity.
Qed.

Lemma marker_spans_from pos segs :
  Forall (fun x => pos <= span_start x) (marker_spans pos segs).
Proof.
  revert pos; induction segs as [|[g [e t]] segs IH]; intros pos;
    cbn [marker_spans]; constructor.
  - unfold span_start. cbn [fst snd]. len_lia.
  - eapply Forall_impl; [|apply IH]. intros x H. cbv beta in H. len_lia.
Qed.

Lemma marker_spans_ordered pos segs :
  StronglySorted (fun x y => span_end x <= span_start y)
    (marker_spans pos segs).
Proof.
  revert pos; induction segs as [|[g [e t]] segs IH]; intros pos;
    cbn [marker_spans]; constructor.
  - apply IH.
  - apply marker_spans_from.
Qed.

Lemma marker_spans_slices pre segs tail :
  Forall (fun x => slice (pre ++ document segs tail)
                     (span_start x) (span_end x)
                   = safe_token (span_entity x) (span_token x))
    (marker_spans (len pre) segs).
Proof.
  revert pre; induction segs as [|[g [e t]] segs IH]; intros pre;
    cbn [marker_spans document]; constructor.
  - unfold span_start, span_end, span_entity, span_token. cbn [fst snd].
    rewrite <- len_app, app_assoc. apply slice_middle.
  - specialize (IH (pre ++ g ++ safe_token e t)).
    rewrite <- !app_assoc in IH. rewrite 2 len_app, Z.add_assoc in IH.
    exact IH.
Qed.

(** C7.  In a document made of marker-free plain text and markers whose
    entity types match [[A-Z_]+] and whose tokens match
    [[A-Za-z0-9_\-]+=*], the scan finds exactly the embedded markers: each
    with its two groups, at the offsets where the marker lies, one after
    another from left to right.  One marker between two plain texts is the
    case of a single segment. *)
Theorem marker_scan_round_trip (segs : list segment) (tail : str) :
  well_formed segs tail ->
  let found := ENCODED_PATTERN_finditer (document segs tail) in
  found = marker_spans 0 segs
  /\ map (fun x => (span_entity x, span_token x)) found = map snd segs
  /\ Forall (fun x => slice (document segs tail) (span_start x) (span_end x)
                      = safe_token (span_entity x) (span_token x)) found
  /\ StronglySorted (fun x y => span_end x <= span_start y) found.
Proof.
  intros H found. unfold found. rewrite (finditer_document segs tail H).
  split; [reflexivity|]. split; [|split].
  - generalize 0. clear H found.
    induction segs as [|[g [e t]] segs IH]; intros pos; [reflexivity|].
    cbn [marker_spans map]. rewrite IH. reflexivity.
  - apply (marker_spans_slices [] segs tail).
  - apply marker_spans_ordered.
Qed.

Lemma marker_scan_round_trip_witness :
  ENCODED_PATTERN_finditer
    (document [(lit "Name: ", (lit "PERSON", lit "abc-_9=="));
               (lit ", mail ", (lit "EMAIL_ADDRESS", lit "Zm9v"))] (lit "."))
  = [(lit "PERSON", lit "abc-_9==", 6, 29);
     (lit "EMAIL_ADDRESS", lit "Zm9v", 36, 62)].
Proof.
  refine (proj1 (marker_scan_round_trip
                   [(lit "Name: ", (lit "PERSON", lit "abc-_9=="));
                    (lit ", mail ", (lit "EMAIL_ADDRESS", lit "Zm9v"))]
                   (lit ".") _)).
  split.
  - repeat (constructor;
            [split; [apply marker_free_iff; reflexivity|];
             split; [apply entity_re_ok | apply token_re_ok]; reflexivity|]).
    constructor.
  - apply marker_free_iff. reflexivity.
Defined.

(** C8.  On a text in which no substring matches the marker pattern the
    decryption pass returns the text as it is, whatever the key. *)
Theorem decrypt_marker_free (C : Cipher) (key_b64 : key C) (md_text : str) :
  marker_free md_text -> decrypt_markers C md_text key_b64 = md_text.
Proof.
  intros H. unfold decrypt_markers.
  apply (sub_document (_replace C key_b64) [] md_text).
  split; [constructor | exact H].
Qed.

Lemma decrypt_marker_free_witness :
  decrypt_markers Hex.cipher (lit "no {{ENC:markers}} in here") "K"%char
  = lit "no {{ENC:markers}} in here".
Proof.
  apply (decrypt_marker_free Hex.cipher "K"%char
           (lit "no {{ENC:markers}} in here")).
  apply marker_free_iff. reflexivity.
Defined.

(** ** Sorting the matches *)

Lemma insert_by_start_perm m l : Permutation (insert_by_start m l) (m :: l).
Proof.
  induction l as [|x l IH]; simpl; [reflexivity|].
  destruct (start x <=? start m); [reflexivity|].
  rewrite IH. apply perm_swap.
Qed.

Lemma matches_sorted_perm ms : Permutation (matches_sorted ms) ms.
Proof.
  induction ms as [|m ms IH]; simpl; [reflexivity|].
  rewrite insert_by_start_perm. constructor. exact IH.
Qed.

Lemma insert_by_start_sorted m l :
  StronglySorted starts_ge l -> StronglySorted starts_ge (insert_by_start m l).
Proof.
  induction 1 as [|x l Hs IH Hx]; simpl.
  - repeat constructor.
  - destruct (Z.leb_spec (start x) (start m)) as [Hle|Hgt].
    + constructor; [constructor; assumption|].
      constructor; [exact Hle|].
      eapply Forall_impl; [|exact Hx]. unfold starts_ge. intros; lia.
    + constructor; [exact IH|].
      eapply Permutation_Forall; [symmetry; apply insert_by_start_perm|].
      constructor; [unfold starts_ge; lia | exact Hx].
Qed.

Lemma matches_sorted_sorted ms : StronglySorted starts_ge (matches_sorted ms).
Proof.
  induction ms as [|m ms IH]; simpl; [constructor|].
  apply insert_by_start_sorted, IH.
Qed.

Lemma forallb_perm {A} (p : A -> bool) l l' :
  Permutation l l' -> forallb p l = forallb p l'.
Proof.
  induction 1; simpl; try congruence.
  - rewrite !andb_assoc, (andb_comm (p y)). reflexivity.
Qed.

Lemma pairwise_perm {A} (r : A -> A -> bool) l l' :
  (forall a b, r a b = r b a) ->
  Permutation l l' -> pairwise r l = pairwise r l'.
Proof.
  intros Hsym. induction 1 as [|x l l' Hp IH|x y l|l l' l'' _ IH1 _ IH2]; simpl.
  - reflexivity.
  - rewrite IH, (forallb_perm (r x) l l' Hp). reflexivity.
  - rewrite (Hsym x y).
    destruct (r y x), (forallb (r y) l), (forallb (r x) l); reflexivity.
  - congruence.
Qed.

Lemma intersects_sym a b : intersects a b = intersects b a.
Proof. unfold intersects. rewrite Z.max_comm, Z.min_comm. reflexivity. Qed.

Lemma pairwise_disjoint_perm l l' :
  Permutation l l' -> pairwise_disjoint l = pairwise_disjoint l'.
Proof.
  apply pairwise_perm. intros a b. rewrite intersects_sym. reflexivity.
Qed.

Lemma distinct_starts_perm l l' :
  Permutation l l' -> distinct_starts l = distinct_starts l'.
Proof.
  apply pairwise_perm. intros a b. rewrite Z.eqb_sym. reflexivity.
Qed.

(** With pairwise distinct starts the sorted list is strictly descending. *)
Lemma sorted_distinct_strict l :
  StronglySorted starts_ge l -> distinct_starts l = true ->
  StronglySorted starts_gt l.
Proof.
  induction 1 as [|x l Hs IH Hx]; intros Hd; [constructor|].
  cbn [distinct_starts pairwise] in Hd. apply andb_true_iff in Hd as [Hx' Hd].
  constructor; [apply IH; exact Hd|].
  rewrite forallb_forall in Hx'. rewrite Forall_forall in Hx |- *.
  intros y Hy. specialize (Hx y Hy). specialize (Hx' y Hy).
  apply negb_true_iff, Z.eqb_neq in Hx'. unfold starts_ge, starts_gt in *. lia.
Qed.

(** A strictly descending list is determined by its entries. *)
Lemma strict_sorted_unique l1 l2 :
  StronglySorted starts_gt l1 -> StronglySorted starts_gt l2 ->
  Permutation l1 l2 -> l1 = l2.
Proof.
  intros H1; revert l2. induction H1 as [|a l1 Hs1 IH Ha]; intros l2 H2 Hp.
  - apply Permutation_nil in Hp. congruence.
  - destruct H2 as [|b l2 Hs2 Hb].
    + apply Permutation_sym, Permutation_nil in Hp. discriminate.
    + assert (a = b) as ->.
      { assert (Hina : In a (b :: l2))
          by (eapply Permutation_in; [exact Hp | left; reflexivity]).
        assert (Hinb : In b (a :: l1))
          by (eapply Permutation_in;
              [symmetry; exact Hp | left; reflexivity]).
        destruct Hina as [|Hina]; [congruence|].
        destruct Hinb as [|Hinb]; [congruence|].
        rewrite Forall_forall in Ha, Hb.
        specialize (Ha b Hinb). specialize (Hb a Hina).
        unfold starts_gt in *. lia. }
      f_equal. apply IH; [exact Hs2|].
      eapply Permutation_cons_inv; exact Hp.
Qed.

Lemma matches_sorted_unique ms ms' :
  distinct_starts ms = true -> Permutation ms ms' ->
  matches_sorted ms = matches_sorted ms'.
Proof.
  intros Hd Hp. apply strict_sorted_unique.
  - apply sorted_distinct_strict; [apply matches_sorted_sorted|].
    rewrite (distinct_starts_perm _ _ (matches_sorted_perm ms)). exact Hd.
  - apply sorted_distinct_strict; [apply matches_sorted_sorted|].
    rewrite (distinct_starts_perm _ _ (matches_sorted_perm ms')).
    rewrite <- (distinct_starts_perm _ _ Hp). exact Hd.
  - rewrite (matches_sorted_perm ms), (matches_sorted_perm ms'). exact Hp.
Qed.

(** C10, as stated, fails: two valid, non-intersecting matches that start at
    the same offset (one of them empty) keep the order they come in, and the
    result changes with it. *)
Lemma order_sensitive_on_shared_start :
  valid_matches (lit "abcde") [detected 1 1 "A" ""; detected 1 3 "B" "bc"]
  = true
  /\ Permutation [detected 1 1 "A" ""; detected 1 3 "B" "bc"]
                 [detected 1 3 "B" "bc"; detected 1 1 "A" ""]
  /\ apply_anonymization_replacements hash_a (lit "abcde")
       [detected 1 1 "A" ""; detected 1 3 "B" "bc"]
     = lit "a[B_2]_0]bcde"
  /\ apply_anonymization_replacements hash_a (lit "abcde")
       [detected 1 3 "B" "bc"; detected 1 1 "A" ""]
     = lit "a[A_0][B_2]de"
  /\ lit "a[B_2]_0]bcde" <> lit "a[A_0][B_2]de".
Proof.
  split; [reflexivity|]. split; [apply perm_swap|].
  split; [vm_compute; reflexivity|].
  split; [vm_compute; reflexivity | discriminate].
Qed.

(** C10, amended.  When the start offsets of the matches are pairwise
    distinct, both replacement functions return the same result for every
    permutation of the match list; the encryption draws the same randomness
    in both runs. *)
Theorem replacement_order_insensitive (C : Cipher) (hash : str -> Z)
  (md_text : str) (ms ms' : list PiiMatch) (key_b64 : key C)
  (rnd : nat -> nonce C) :
  distinct_starts ms = true -> Permutation ms ms' ->
  apply_anonymization_replacements hash md_text ms'
  = apply_anonymization_replacements hash md_text ms
  /\ apply_encryption_replacements C md_text ms' key_b64 rnd
     = apply_encryption_replacements C md_text ms key_b64 rnd.
Proof.
  intros Hd Hp.
  unfold apply_anonymization_replacements, apply_encryption_replacements.
  rewrite (matches_sorted_unique ms ms' Hd Hp). split; reflexivity.
Qed.

Lemma replacement_order_insensitive_witness :
  distinct_starts [detected 0 1 "A" "a"; detected 1 3 "B" "bc"] = true
  /\ Permutation [detected 0 1 "A" "a"; detected 1 3 "B" "bc"]
                 [detected 1 3 "B" "bc"; detected 0 1 "A" "a"]
  /\ apply_anonymization_replacements hash_a (lit "abcde")
       [detected 1 3 "B" "bc"; detected 0 1 "A" "a"]
     = apply_anonymization_replacements hash_a (lit "abcde")
         [detected 0 1 "A" "a"; detected 1 3 "B" "bc"].
Proof.
  split; [reflexivity|]. split; [apply perm_swap|].
  apply (replacement_order_insensitive Hex.cipher hash_a (lit "abcde")
           [detected 0 1 "A" "a"; detected 1 3 "B" "bc"]
           [detected 1 3 "B" "bc"; detected 0 1 "A" "a"] "K"%char (fun _ => tt)
           eq_refl (perm_swap _ _ _)).
Defined.

(** ** The replacement loops as one splice loop *)

Lemma anonymization_loop_splice_all hash buf ms :
  anonymization_loop hash buf ms
  = splice_all buf (map (fun m => (m, placeholder hash m)) ms).
Proof.
  revert buf; induction ms as [|m ms IH]; intros buf; simpl;
    [reflexivity | apply IH].
Qed.

Lemma encryption_loop_splice_all C buf ms k rnd i :
  encryption_loop C buf ms k rnd i
  = option_map (fun markers => splice_all buf (combine ms markers))
      (inserted_markers C ms k rnd i).
Proof.
  revert buf i; induction ms as [|m ms IH]; intros buf i; simpl;
    [reflexivity|].
  destruct (encrypt_text C (text m) k (rnd i)) as [c|]; [|reflexivity].
  rewrite IH. destruct (inserted_markers C ms k rnd (S i)); reflexivity.
Qed.

Lemma inserted_markers_length C ms k rnd i markers :
  inserted_markers C ms k rnd i = Some markers ->
  List.length markers = List.length ms.
Proof.
  revert i markers; induction ms as [|m ms IH]; intros i markers; simpl.
  - intros H; injection H as <-. reflexivity.
  - destruct (encrypt_text C (text m) k (rnd i)) as [c|]; [|discriminate].
    destruct (inserted_markers C ms k rnd (S i)) as [tl|] eqn:E;
      [|discriminate].
    intros H; injection H as <-. simpl. f_equal. eapply IH; eauto.
Qed.

(** ** Lengths *)

Lemma total_len_nonneg l : 0 <= total_len l.
Proof.
  induction l as [|s l IH]; simpl; [lia|]. pose proof (len_nonneg s). lia.
Qed.

Lemma total_len_perm l l' : Permutation l l' -> total_len l = total_len l'.
Proof. induction 1; simpl; lia. Qed.

Lemma splice_len buf m r :
  0 <= start m <= end_ m -> end_ m <= len buf ->
  len (splice buf m r) = len buf - (end_ m - start m) + len r.
Proof.
  intros H1 H2. unfold splice.
  rewrite !len_app, len_slice_to, len_slice_from, !clamp_id by lia. lia.
Qed.

Lemma splice_all_len l :
  forall buf bound,
    StronglySorted starts_ge (map fst l) ->
    pairwise_disjoint (map fst l) = true ->
    Forall (fun m => 0 <= start m <= end_ m /\ end_ m <= bound) (map fst l) ->
    bound <= len buf ->
    len (splice_all buf l)
    = len buf - span_total (map fst l) + total_len (map snd l).
Proof.
  induction l as [|[m r] l IH]; intros buf bound Hs Hd Hb Hbuf.
  - simpl. lia.
  - cbn [map fst snd splice_all span_total total_len fold_right] in *.
    inversion Hs as [|? ? Hs' Hge]; subst.
    inversion Hb as [|? ? [Hm Hmb] Hb']; subst.
    cbn [pairwise_disjoint pairwise] in Hd.
    apply andb_true_iff in Hd as [Hdm Hd].
    pose proof (len_nonneg r) as Hr.
    rewrite (IH (splice buf m r)
               (if start m <? end_ m then start m else bound)).
    + rewrite splice_len by lia. fold (span_total (map fst l)).
      fold (total_len (map snd l)). lia.
    + exact Hs'.
    + exact Hd.
    + rewrite forallb_forall in Hdm. rewrite Forall_forall in Hge, Hb' |- *.
      intros x Hx. destruct (Hb' x Hx) as [Hx1 Hx2].
      split; [exact Hx1|].
      destruct (Z.ltb_spec (start m) (end_ m)); [|exact Hx2].
      specialize (Hdm x Hx). specialize (Hge x Hx).
      apply negb_true_iff in Hdm. unfold intersects in Hdm.
      apply Z.ltb_ge in Hdm. unfold starts_ge in Hge. lia.
    + rewrite splice_len by lia.
      destruct (Z.ltb_spec (start m) (end_ m)); lia.
Qed.

Lemma captured_len md_text m :
  in_bounds md_text m = true -> captured md_text m = true ->
  len (text m) = end_ m - start m.
Proof.
  unfold in_bounds, captured. rewrite !andb_true_iff, !Z.leb_le, str_eqb_eq.
  intros [[H0 H1] H2] ->. rewrite slice_firstn_skipn by lia.
  unfold len in *. rewrite length_firstn, length_skipn. lia.
Qed.

Lemma valid_matches_inv md_text ms :
  valid_matches md_text ms = true ->
  Forall (fun m => in_bounds md_text m = true /\ captured md_text m = true) ms
  /\ pairwise_disjoint ms = true.
Proof.
  unfold valid_matches. rewrite andb_true_iff, forallb_forall, Forall_forall.
  intros [Hv Hd]. split; [|exact Hd]. intros m Hm.
  apply andb_true_iff. exact (Hv m Hm).
Qed.

Lemma text_total md_text ms :
  Forall (fun m => in_bounds md_text m = true
                   /\ captured md_text m = true) ms ->
  total_len (map text ms) = span_total ms.
Proof.
  induction 1 as [|m ms [Hb Hc] _ IH]; [reflexivity|].
  unfold total_len, span_total in *. cbn [map fold_right].
  rewrite IH, (captured_len md_text m Hb Hc). reflexivity.
Qed.

(** The length of what the splice loop returns on the sorted matches. *)
Lemma splice_sorted_len md_text ms (subs : list str) :
  valid_matches md_text ms = true ->
  List.length subs = List.length ms ->
  len (splice_all md_text (combine (matches_sorted ms) subs))
  = len md_text - total_len (map text ms) + total_len subs.
Proof.
  intros Hv Hlen. apply valid_matches_inv in Hv as [Hall Hd].
  pose proof (matches_sorted_perm ms) as Hp.
  assert (Hlen' : List.length (matches_sorted ms) = List.length subs).
  { rewrite (Permutation_length Hp). auto. }
  assert (Hfst : map fst (combine (matches_sorted ms) subs)
                 = matches_sorted ms).
  { clear -Hlen'. revert subs Hlen'.
    induction (matches_sorted ms) as [|m l IH]; intros [|s subs] H;
      simpl in *; try discriminate; [reflexivity|].
    f_equal. apply IH. lia. }
  assert (Hsnd : map snd (combine (matches_sorted ms) subs) = subs).
  { clear -Hlen'. revert subs Hlen'.
    induction (matches_sorted ms) as [|m l IH]; intros [|s subs] H;
      simpl in *; try discriminate; [reflexivity|].
    f_equal. apply IH. lia. }
  rewrite (splice_all_len _ md_text (len md_text)); rewrite ?Hfst, ?Hsnd.
  - assert (Hall' : Forall (fun m => in_bounds md_text m = true
                                     /\ captured md_text m = true)
                      (matches_sorted ms)).
    { eapply Permutation_Forall; [symmetry; exact Hp | exact Hall]. }
    rewrite <- (text_total md_text _ Hall').
    rewrite (total_len_perm _ _ (Permutation_map text Hp)). reflexivity.
  - apply matches_sorted_sorted.
  - rewrite (pairwise_disjoint_perm _ _ Hp). exact Hd.
  - eapply Permutation_Forall; [symmetry; exact Hp|].
    eapply Forall_impl; [|exact Hall]. intros m [Hb _].
    unfold in_bounds in Hb. rewrite !andb_true_iff, !Z.leb_le in Hb. lia.
  - lia.
Qed.

Lemma combine_map {A B} (f : A -> B) (l : list A) :
  combine l (map f l) = map (fun x => (x, f x)) l.
Proof.
  induction l as [|x l IH]; simpl; [reflexivity | rewrite IH; reflexivity].
Qed.

(** C5.  For a valid, pairwise non-intersecting match set the rewritten
    document is as long as the text, less the captured texts, plus the
    inserted replacements: the placeholders in anonymize mode, the markers in
    encrypt mode (where the loop returns exactly when the cipher returns a
    token for every match). *)
Theorem length_invariant (C : Cipher) (hash : str -> Z) (md_text : str)
  (ms : list PiiMatch) (key_b64 : key C) (rnd : nat -> nonce C) :
  valid_matches md_text ms = true ->
  len (apply_anonymization_replacements hash md_text ms)
  = len md_text - total_len (map text ms)
    + total_len (map (placeholder hash) ms)
  /\ match inserted_markers C (matches_sorted ms) key_b64 rnd 0 with
     | Some markers =>
         exists out,
           apply_encryption_replacements C md_text ms key_b64 rnd = Some out
           /\ len out = len md_text - total_len (map text ms)
                        + total_len markers
     | None => apply_encryption_replacements C md_text ms key_b64 rnd = None
     end.
Proof.
  intros Hv. pose proof (matches_sorted_perm ms) as Hp. split.
  - unfold apply_anonymization_replacements.
    rewrite anonymization_loop_splice_all.
    rewrite <- combine_map.
    rewrite (splice_sorted_len md_text ms _ Hv).
    + rewrite (total_len_perm _ _ (Permutation_map (placeholder hash) Hp)).
      reflexivity.
    + rewrite length_map. apply Permutation_length. exact Hp.
  - unfold apply_encryption_replacements. rewrite encryption_loop_splice_all.
    destruct (inserted_markers C (matches_sorted ms) key_b64 rnd 0)
      as [markers|] eqn:E; [|reflexivity].
    eexists. split; [reflexivity|].
    apply (splice_sorted_len md_text ms markers Hv).
    rewrite (inserted_markers_length _ _ _ _ _ _ E).
    apply Permutation_length. exact Hp.
Qed.

Lemma length_invariant_witness :
  valid_matches (lit "abcde") [detected 0 1 "A" "a"; detected 1 3 "B" "bc"]
  = true
  /\ len (apply_anonymization_replacements hash_a (lit "abcde")
            [detected 0 1 "A" "a"; detected 1 3 "B" "bc"])
     = 5 - 3 + 10.
Proof.
  split; [reflexivity|].
  exact (proj1 (length_invariant Hex.cipher hash_a (lit "abcde")
                  [detected 0 1 "A" "a"; detected 1 3 "B" "bc"] "K"%char
                  (fun _ => tt) eq_refl)).
Defined.

(** ** Encryption followed by decryption *)

Lemma sorted_chained ds :
  forall hi,
    StronglySorted starts_ge ds ->
    pairwise_disjoint ds = true ->
    Forall (fun d => 0 <= start d /\ start d < end_ d /\ end_ d <= hi) ds ->
    chained hi ds.
Proof.
  induction ds as [|d ds IH]; intros hi Hs Hd Hb; [exact I|].
  inversion Hs as [|? ? Hs' Hge]; subst.
  inversion Hb as [|? ? (H0 & H1 & H2) Hb']; subst.
  cbn [pairwise_disjoint pairwise] in Hd.
  apply andb_true_iff in Hd as [Hdm Hd].
  cbn [chained]. repeat split; try lia.
  apply IH; [exact Hs' | exact Hd |].
  rewrite forallb_forall in Hdm. rewrite Forall_forall in Hge, Hb' |- *.
  intros x Hx. destruct (Hb' x Hx) as (Hx0 & Hx1 & Hx2).
  specialize (Hdm x Hx). specialize (Hge x Hx).
  apply negb_true_iff in Hdm. unfold intersects in Hdm.
  apply Z.ltb_ge in Hdm. unfold starts_ge in Hge. lia.
Qed.

Lemma splice_untouched s hi rest d sub :
  0 <= start d -> start d <= end_ d -> end_ d <= hi -> hi <= len s ->
  splice (slice_to s hi ++ rest) d sub
  = slice_to s (start d) ++ sub ++ slice s (end_ d) hi ++ rest.
Proof.
  intros H0 H1 H2 H3. unfold splice.
  rewrite slice_to_untouched, slice_from_untouched by lia. reflexivity.
Qed.

Lemma marker_free_substring pre x post :
  marker_free (pre ++ x ++ post) -> marker_free x.
Proof.
  intros H p m q ->. apply (H (pre ++ p) m (q ++ post)).
  rewrite <- !app_assoc. reflexivity.
Qed.

Lemma marker_free_slice s a b : marker_free s -> marker_free (slice s a b).
Proof.
  intros H. destruct (slice_substring s a b) as (pre & post & E).
  rewrite E in H. eapply marker_free_substring; eauto.
Qed.

Lemma marker_free_slice_to s i : marker_free s -> marker_free (slice_to s i).
Proof.
  intros H. destruct (slice_to_substring s i) as (post & E).
  rewrite E in H. apply (marker_free_substring [] _ post). exact H.
Qed.

Lemma boundary_trailing l : boundary (trailing_text l).
Proof.
  destruct l as [|[[e t] gap] l]; [left; reflexivity|].
  right. eexists. reflexivity.
Qed.

Lemma scan_trailing g l :
  marker_free g -> trailing_ok l ->
  scan (g ++ trailing_text l)
  = map Plain g
    ++ flat_map (fun x => Found (fst (fst x)) (snd (fst x))
                          :: map Plain (snd x)) l.
Proof.
  intros Hg Hl. revert g Hg.
  induction Hl as [|[[e t] gap] l (He & Ht & Hgap) _ IH]; intros g Hg.
  - cbn [trailing_text flat_map].
    rewrite scan_plain by (auto; left; reflexivity).
    reflexivity.
  - rewrite scan_plain; [|exact Hg | apply boundary_trailing].
    f_equal. cbn [trailing_text flat_map fst snd] in *.
    rewrite <- app_assoc, scan_marker by assumption.
    fold (trailing_text l). rewrite IH by exact Hgap. reflexivity.
Qed.

Lemma sub_trailing repl g l :
  marker_free g -> trailing_ok l ->
  ENCODED_PATTERN_sub repl (g ++ trailing_text l) = g ++ trailing_sub repl l.
Proof.
  intros Hg Hl. unfold ENCODED_PATTERN_sub.
  rewrite (scan_trailing g l Hg Hl), flat_map_app, flat_map_plain,
    flat_map_singleton.
  f_equal. clear. induction l as [|[[e t] gap] l IH]; [reflexivity|].
  cbn [flat_map trailing_sub fst snd app].
  rewrite flat_map_app, flat_map_plain, flat_map_singleton, IH, <- app_assoc.
  reflexivity.
Qed.

Section RoundTrip.

Variable C : Cipher.
Variable usable : key C -> Prop.
Hypothesis laws : lawful C usable.
Variable key_b64 : key C.
Hypothesis key_usable : usable key_b64.
Variable rnd : nat -> nonce C.
Variable md_text : str.
Hypothesis plain : marker_free md_text.

Lemma encryption_loop_restores ds :
  forall hi l i,
    chained hi ds ->
    Forall (fun d => captured md_text d = true
                     /\ entity_ok (entity_type d) = true) ds ->
    restores C key_b64 md_text hi l ->
    exists lo l',
      encryption_loop C (slice_to md_text hi ++ trailing_text l) ds
        key_b64 rnd i
      = Some (slice_to md_text lo ++ trailing_text l')
      /\ restores C key_b64 md_text lo l'.
Proof.
  induction ds as [|d ds IH]; intros hi l i Hch Hds Hinv.
  - exists hi, l. split; [reflexivity | exact Hinv].
  - destruct Hch as (H0 & H1 & H2 & Hch).
    inversion Hds as [|? ? [Hcap Hent] Hds']; subst.
    destruct Hinv as (Hhi & Hok & Hsub).
    destruct (encrypt_returns C usable laws (text d) key_b64 (rnd i) key_usable)
      as [tok Htok].
    cbn [encryption_loop]. rewrite Htok.
    rewrite splice_untouched by lia.
    specialize (IH (start d)
                  (((entity_type d, tok), slice md_text (end_ d) hi) :: l)
                  (S i) Hch Hds').
    cbn [trailing_text flat_map fst snd] in IH. fold (trailing_text l) in IH.
    rewrite <- !app_assoc in IH. apply IH. clear IH.
    split; [lia|]. split.
    + constructor; [|exact Hok]. cbn [fst snd].
      split; [exact Hent|]. split.
      * apply token_re_ok. eapply encrypt_token; eauto.
      * apply marker_free_slice. exact plain.
    + cbn [trailing_sub flat_map fst snd].
      fold (trailing_sub (_replace C key_b64) l).
      rewrite Hsub. unfold _replace.
      rewrite (decrypt_encrypt C usable laws _ _ _ _ Htok).
      apply str_eqb_eq in Hcap. rewrite Hcap, <- app_assoc.
      rewrite (slice_then_from md_text (end_ d) hi) by lia.
      apply slice_then_from; lia.
Qed.

End RoundTrip.

(** Non-intersecting non-empty spans start at different offsets. *)
Lemma nonempty_disjoint_distinct ms :
  forallb nonempty_span ms = true -> pairwise_disjoint ms = true ->
  distinct_starts ms = true.
Proof.
  induction ms as [|m ms IH]; [reflexivity|].
  cbn [forallb pairwise_disjoint distinct_starts pairwise].
  rewrite !andb_true_iff. intros [Hm Hms] [Hd Hds].
  split; [|apply IH; assumption].
  rewrite forallb_forall in *. intros x Hx.
  specialize (Hd x Hx). specialize (Hms x Hx).
  unfold nonempty_span, intersects in *.
  apply negb_true_iff in Hd. apply Z.ltb_ge in Hd.
  apply Z.ltb_lt in Hm, Hms. apply negb_true_iff, Z.eqb_neq. lia.
Qed.

(** C1, amended.  Under a cipher that keeps its contract and a key it
    accepts: when the text holds no marker, the matches are valid,
    non-intersecting and non-empty and their entity types match [[A-Z_]+],
    the encryption returns a document, and decrypting that document under
    the same key gives the text back. *)
Theorem encrypt_decrypt_round_trip (C : Cipher) (usable : key C -> Prop)
  (md_text : str) (ms : list PiiMatch) (key_b64 : key C)
  (rnd : nat -> nonce C) :
  lawful C usable -> usable key_b64 ->
  marker_free md_text ->
  valid_matches md_text ms = true ->
  forallb nonempty_span ms = true ->
  Forall (fun m => Re.matches entity_re (entity_type m)) ms ->
  exists doc,
    apply_encryption_replacements C md_text ms key_b64 rnd = Some doc
    /\ decrypt_markers C doc key_b64 = md_text.
Proof.
  intros laws Hk Hplain Hv Hne Hent.
  apply valid_matches_inv in Hv as [Hall Hd].
  pose proof (matches_sorted_perm ms) as Hp.
  assert (Hall' : Forall (fun d => (in_bounds md_text d = true
                                    /\ captured md_text d = true)
                                   /\ nonempty_span d = true
                                   /\ entity_ok (entity_type d) = true)
                    (matches_sorted ms)).
  { eapply Permutation_Forall; [symmetry; exact Hp|].
    rewrite forallb_forall in Hne. rewrite Forall_forall in *.
    intros m Hm. split; [auto|]. split; [auto|].
    apply entity_re_ok. auto. }
  destruct (encryption_loop_restores C usable laws key_b64 Hk rnd md_text
              Hplain (matches_sorted ms) (len md_text) [] 0%nat)
    as (lo & l & Hrun & Hlo & Hok & Hsub).
  - apply sorted_chained.
    + apply matches_sorted_sorted.
    + rewrite (pairwise_disjoint_perm _ _ Hp). exact Hd.
    + eapply Forall_impl; [|exact Hall']. intros d ((Hb & _) & Hn & _).
      unfold in_bounds, nonempty_span in *.
      rewrite !andb_true_iff, !Z.leb_le in Hb. apply Z.ltb_lt in Hn. lia.
  - eapply Forall_impl; [|exact Hall']. intros d ((_ & Hc) & _ & He). auto.
  - split; [len_lia|].
    split; [constructor|]. rewrite slice_from_all. reflexivity.
  - cbn [trailing_text flat_map] in Hrun.
    rewrite slice_to_all, app_nil_r in Hrun.
    exists (slice_to md_text lo ++ trailing_text l). split; [exact Hrun|].
    unfold decrypt_markers.
    rewrite sub_trailing;
      [|apply marker_free_slice_to; exact Hplain | exact Hok].
    rewrite Hsub. apply slice_to_from.
Qed.

(** ** The hexadecimal cipher keeps the contract *)

Lemma hex_decode_byte c rest :
  Hex.decode (Hex.of_byte c ++ rest) = option_map (cons c) (Hex.decode rest).
Proof.
  destruct c as [[] [] [] [] [] [] [] []];
    cbn; destruct (Hex.decode rest); reflexivity.
Qed.

Lemma hex_decode_encode s : Hex.decode (Hex.encode s) = Some s.
Proof.
  induction s as [|c s IH]; [reflexivity|].
  change (Hex.encode (c :: s)) with (Hex.of_byte c ++ Hex.encode s).
  rewrite hex_decode_byte, IH. reflexivity.
Qed.

Lemma hex_byte_token c : forallb token_char (Hex.of_byte c) = true.
Proof.
  destruct c as [[] [] [] [] [] [] [] []]; reflexivity.
Qed.

Lemma hex_encode_token s : forallb token_char (Hex.encode s) = true.
Proof.
  induction s as [|c s IH]; [reflexivity|].
  change (Hex.encode (c :: s)) with (Hex.of_byte c ++ Hex.encode s).
  rewrite forallb_app, hex_byte_token, IH. reflexivity.
Qed.

Lemma hex_lawful : lawful Hex.cipher (fun _ => True).
Proof.
  split.
  - intros p k r _. eexists. reflexivity.
  - intros p k r tok H. cbn in H. injection H as <-.
    apply token_re_ok, token_ok_split.
    exists (Hex.encode (k :: p)), []. rewrite app_nil_r.
    repeat split; [|apply hex_encode_token].
    change (Hex.encode (k :: p)) with (Hex.of_byte k ++ Hex.encode p).
    discriminate.
  - intros p k r tok H. cbn in H. injection H as <-.
    change (match Hex.decode (Hex.encode (k :: p)) with
            | Some (k' :: p0) => if Ascii.eqb k k' then Some p0 else None
            | _ => None
            end = Some p).
    rewrite hex_decode_encode, Ascii.eqb_refl. reflexivity.
Qed.

(** C1, as stated, fails, in three ways:
    - an empty span that starts where another match starts is spliced first
      when it comes first, and the second splice cuts into its marker;
    - a marker for an entity type outside [[A-Z_]+] is not found again;
    - a marker the text already holds is decrypted as well. *)
Lemma round_trip_counterexamples :
  (valid_matches (lit "abcde") [detected 1 1 "A" ""; detected 1 3 "B" "bc"]
   = true
   /\ apply_encryption_replacements Hex.cipher (lit "abcde")
        [detected 1 1 "A" ""; detected 1 3 "B" "bc"] "K"%char (fun _ => tt)
      = Some (lit "a{{ENC:B:4b6263}}ENC:A:4b}}bcde")
   /\ decrypt_markers Hex.cipher (lit "a{{ENC:B:4b6263}}ENC:A:4b}}bcde")
        "K"%char
      = lit "abcENC:A:4b}}bcde"
   /\ lit "abcENC:A:4b}}bcde" <> lit "abcde")
  /\ (valid_matches (lit "abc") [detected 0 3 "Email" "abc"] = true
      /\ apply_encryption_replacements Hex.cipher (lit "abc")
           [detected 0 3 "Email" "abc"] "K"%char (fun _ => tt)
         = Some (lit "{{ENC:Email:4b616263}}")
      /\ decrypt_markers Hex.cipher (lit "{{ENC:Email:4b616263}}") "K"%char
         = lit "{{ENC:Email:4b616263}}"
      /\ lit "{{ENC:Email:4b616263}}" <> lit "abc")
  /\ (valid_matches (lit "{{ENC:A:4b78}}") [] = true
      /\ apply_encryption_replacements Hex.cipher (lit "{{ENC:A:4b78}}") []
           "K"%char (fun _ => tt)
         = Some (lit "{{ENC:A:4b78}}")
      /\ decrypt_markers Hex.cipher (lit "{{ENC:A:4b78}}") "K"%char = lit "x"
      /\ lit "x" <> lit "{{ENC:A:4b78}}").
Proof.
  repeat split; try (vm_compute; reflexivity); discriminate.
Qed.

Lemma encrypt_decrypt_round_trip_witness :
  exists doc,
    apply_encryption_replacements Hex.cipher (lit "Contact: john@example.com")
      [detected 9 25 "EMAIL_ADDRESS" "john@example.com"] "K"%char (fun _ => tt)
    = Some doc
    /\ decrypt_markers Hex.cipher doc "K"%char
       = lit "Contact: john@example.com".
Proof.
  apply (encrypt_decrypt_round_trip Hex.cipher (fun _ => True)
           (lit "Contact: john@example.com")
           [detected 9 25 "EMAIL_ADDRESS" "john@example.com"] "K"%char
           (fun _ => tt) hex_lawful I).
  - apply marker_free_iff. reflexivity.
  - reflexivity.
  - reflexivity.
  - constructor; [|constructor]. apply entity_re_ok. reflexivity.
Defined.

(** ** Every document is plain text and markers *)

Lemma first_marker s :
  marker_free s
  \/ exists g entity token rest,
       s = g ++ safe_token entity token ++ rest
       /\ marker_free g
       /\ entity_ok entity = true /\ token_ok token = true.
Proof.
  induction s as [|c s IH].
  - left. intros [|p pre] m post E Hm.
    + apply pattern_matches in Hm as (e & t & -> & _). discriminate.
    + discriminate.
  - destruct (match_at (c :: s)) as [[e t]|] eqn:M.
    { right. apply match_at_sound in M as (rest & E & He & Ht).
      exists [], e, t, rest. repeat split; auto.
      intros [|p pre] m post E' Hm; [|discriminate].
      apply pattern_matches in Hm as (e' & t' & -> & _). discriminate. }
    assert (Hno : forall g rest, c :: s = (c :: g) ++ rest ->
                                 marker_free g -> marker_free (c :: g)).
    { intros g rest E Hg pre m post E' Hm. destruct pre as [|p pre].
      - apply pattern_matches in Hm as (e & t & -> & He & Ht).
        cbn [app] in E'. rewrite E', <- app_assoc in E.
        rewrite E, (match_at_complete e t _ He Ht) in M. discriminate.
      - injection E' as _ E'. exact (Hg pre m post E' Hm). }
    destruct IH as [Hfree|(g & e & t & rest & -> & Hg & He & Ht)].
    + left. apply (Hno s []); [rewrite app_nil_r; reflexivity | exact Hfree].
    + right. exists (c :: g), e, t, rest. repeat split; auto.
      eapply Hno; [reflexivity | exact Hg].
Qed.

Lemma document_layout_bounded n :
  forall s, (List.length s <= n)%nat ->
    exists segs tail, s = document segs tail /\ well_formed segs tail.
Proof.
  induction n as [|n IH]; intros s Hn.
  - destruct s; [|simpl in Hn; lia].
    exists [], []. split; [reflexivity|]. split; [constructor|].
    intros [|p pre] m post E Hm; [|discriminate].
    apply pattern_matches in Hm as (e & t & -> & _). discriminate.
  - destruct (first_marker s) as [Hfree|(g & e & t & rest & -> & Hg & He & Ht)].
    + exists [], s. split; [reflexivity|]. split; [constructor | exact Hfree].
    + destruct (IH rest) as (segs & tail & -> & Hsegs & Htail).
      { rewrite !length_app in Hn. unfold safe_token in Hn.
        rewrite !length_app in Hn. simpl in Hn. lia. }
      exists ((g, (e, t)) :: segs), tail. split; [reflexivity|].
      split; [|exact Htail]. constructor; [|exact Hsegs].
      cbn [fst snd]. split; [exact Hg|].
      split; [apply entity_re_ok | apply token_re_ok]; assumption.
Qed.

Lemma document_layout s :
  exists segs tail, s = document segs tail /\ well_formed segs tail.
Proof. apply (document_layout_bounded (List.length s)). lia. Qed.

(** ** Decryption failures *)

(** C4, as stated, fails: the decrypt command reports the number of markers
    it found, not the number of failed decryptions.  Of the two markers here
    the first decrypts under the key and the second does not. *)
Lemma decrypt_reports_markers_found :
  main_decrypt Hex.cipher (lit "K")
    (lit "see {{ENC:A:4b78}} and {{ENC:B:4c78}}.") tt
  = {| exit_status := 0;
       decrypted_md := Some (lit "see x and {{ENC:B:4c78}}.");
       markers_decrypted := Some 2 |}
  /\ decrypt_failures Hex.cipher
       (lit "see {{ENC:A:4b78}} and {{ENC:B:4c78}}.") "K"%char = 1
  /\ Some 2 <> Some 1.
Proof.
  split; [vm_compute; reflexivity|].
  split; [vm_compute; reflexivity | discriminate].
Qed.

(** C4, amended.  On a document of plain text and markers, under a key the
    command accepts: every marker whose token decrypts is replaced by the
    plaintext, every marker whose token does not is left as it is written,
    the plain text around them is kept, the command returns 0, and the count
    in its audit event is the number of markers in the document. *)
Theorem decrypt_failure_recovery (C : Cipher) (args_key : str)
  (key_rnd : nonce C) (key_bytes : key C) (segs : list segment) (tail : str) :
  well_formed segs tail ->
  ensure_fernet_key C (Some args_key) key_rnd = Ok key_bytes ->
  main_decrypt C args_key (document segs tail) key_rnd
  = {| exit_status := 0;
       decrypted_md :=
         Some (substituted
                 (fun entity token =>
                    match decrypt_text C token key_bytes with
                    | Some plain => plain
                    | None => safe_token entity token
                    end) segs tail);
       markers_decrypted := Some (Z.of_nat (List.length segs)) |}.
Proof.
  intros Hwf Hkey. unfold main_decrypt. rewrite Hkey.
  unfold decrypt_markers.
  rewrite (sub_document _ segs tail Hwf), (findall_document segs tail Hwf).
  rewrite length_map. reflexivity.
Qed.

Lemma decrypt_failure_recovery_witness :
  main_decrypt Hex.cipher (lit "K")
    (document [(lit "see ", (lit "A", lit "4b78"));
               (lit " and ", (lit "B", lit "4c78"))] (lit ".")) tt
  = {| exit_status := 0;
       decrypted_md := Some (lit "see x and {{ENC:B:4c78}}.");
       markers_decrypted := Some 2 |}.
Proof.
  apply (decrypt_failure_recovery Hex.cipher (lit "K") tt "K"%char
           [(lit "see ", (lit "A", lit "4b78"));
            (lit " and ", (lit "B", lit "4c78"))] (lit ".")).
  - split.
    + repeat (constructor;
              [split; [apply marker_free_iff; reflexivity|];
               split; [apply entity_re_ok | apply token_re_ok]; reflexivity|]).
      constructor.
    + apply marker_free_iff. reflexivity.
  - reflexivity.
Defined.

(** ** No validation before rewriting *)

(** C2, as stated, fails: match sets that intersect, run backwards, run past
    the end of the text or carry a stale text are rewritten all the same. *)
Lemma invalid_matches_are_rewritten :
  (valid_matches (lit "abcdef")
     [detected 0 4 "A" "abcd"; detected 2 6 "B" "cdef"] = false
   /\ process Hex.cipher hash_a anonymize (lit "abcdef")
        [detected 0 4 "A" "abcd"; detected 2 6 "B" "cdef"] None (fun _ => tt)
      = Ok (lit "[A_4]_4]"))
  /\ (valid_matches (lit "abcdef") [detected 4 2 "A" ""] = false
      /\ process Hex.cipher hash_a anonymize (lit "abcdef")
           [detected 4 2 "A" ""] None (fun _ => tt)
         = Ok (lit "abcd[A_0]cdef"))
  /\ (valid_matches (lit "abcdef") [detected 4 9 "A" "ef"] = false
      /\ process Hex.cipher hash_a anonymize (lit "abcdef")
           [detected 4 9 "A" "ef"] None (fun _ => tt)
         = Ok (lit "abcd[A_2]"))
  /\ (valid_matches (lit "abcdef") [detected 1 3 "A" "zz"] = false
      /\ process Hex.cipher hash_a anonymize (lit "abcdef")
           [detected 1 3 "A" "zz"] None (fun _ => tt)
         = Ok (lit "a[A_2]def"))
  /\ process Hex.cipher hash_a encrypt (lit "abcdef")
       [detected 0 4 "A" "abcd"; detected 2 6 "B" "cdef"] (Some "K"%char)
       (fun _ => tt)
     = Ok (lit "{{ENC:A:4b61626364}}ENC:B:4b63646566}}").
Proof.
  repeat split; vm_compute; reflexivity.
Qed.

(** C2, amended.  The rewrite step checks nothing about the matches: in
    anonymize mode it returns the spliced text for every match set, and in
    encrypt mode it returns the spliced text whenever the cipher returns a
    token for every match and raises only when the cipher does. *)
Theorem rewrite_without_validation (C : Cipher) (hash : str -> Z)
  (md_text : str) (ms : list PiiMatch) (key_b64 : key C)
  (rnd : nat -> nonce C) :
  process C hash anonymize md_text ms None rnd
  = Ok (splice_all md_text
          (map (fun m => (m, placeholder hash m)) (matches_sorted ms)))
  /\ process C hash encrypt md_text ms (Some key_b64) rnd
     = match inserted_markers C (matches_sorted ms) key_b64 rnd 0 with
       | Some markers =>
           Ok (splice_all md_text (combine (matches_sorted ms) markers))
       | None => Raise External
       end.
Proof.
  split.
  - cbn [process]. unfold apply_anonymization_replacements.
    rewrite anonymization_loop_splice_all. reflexivity.
  - cbn [process]. unfold apply_encryption_replacements.
    rewrite encryption_loop_splice_all.
    destruct (inserted_markers C (matches_sorted ms) key_b64 rnd 0);
      reflexivity.
Qed.

(** ** The placeholder of anonymize mode *)

(** C3 on the code: the number in the placeholder is the residue of the
    interpreter's own [hash] of the matched text, so it is the same in two
    runs only if the two interpreters hash the text alike. *)
Theorem placeholder_follows_interpreter_hash (hash : str -> Z) :
  apply_anonymization_replacements hash (lit "Contact: john@example.com")
    [detected 9 25 "EMAIL_ADDRESS" "john@example.com"]
  = lit "Contact: [EMAIL_ADDRESS_"
    ++ str_of_int (Z.abs (hash (lit "john@example.com")) mod 10000)
    ++ lit "]".
Proof.
  unfold apply_anonymization_replacements.
  cbn [matches_sorted fold_right insert_by_start anonymization_loop].
  unfold splice, placeholder.
  change (slice_to _ _) with (lit "Contact: ").
  change (slice_from _ _) with (@nil ascii).
  rewrite app_nil_r. reflexivity.
Qed.

Lemma placeholder_differs_between_interpreters :
  apply_anonymization_replacements hash_a (lit "Contact: john@example.com")
    [detected 9 25 "EMAIL_ADDRESS" "john@example.com"]
  = lit "Contact: [EMAIL_ADDRESS_16]"
  /\ apply_anonymization_replacements hash_b (lit "Contact: john@example.com")
       [detected 9 25 "EMAIL_ADDRESS" "john@example.com"]
     = lit "Contact: [EMAIL_ADDRESS_17]".
Proof. split; reflexivity. Qed.

(** ** An analyzer that cannot be built or run *)

(** C9.  When the analyzer package cannot be imported, or none of the three
    attempts to build and warm up an analyzer succeeds, or the analyzer that
    was built raises on the document, the analysis raises (it does not
    return an empty match list) and the encrypt command ends with that
    exception before it writes anything. *)
Theorem detector_fail_closed (C : Cipher) (D : Detector) (hash : str -> Z)
  (md : mode) (args_key : option str) (entities : option (list str))
  (md_text : str) (key_rnd : nonce C) (rnd : nat -> nonce C) :
  ((exists e, imported D = Raise e)
   \/ (exists e1 e2 e3,
         warmed_up D (engine_with D en_core_web_lg) = Raise e1
         /\ warmed_up D (engine_with D en_core_web_sm) = Raise e2
         /\ warmed_up D (engine_default D) = Raise e3)
   \/ (exists a e,
         build_analyzer D = Ok a
         /\ analyze D a md_text entities = Raise e)) ->
  (exists e, analyze_pii D md_text entities = Raise e)
  /\ analyze_pii D md_text entities <> Ok []
  /\ exists e,
       main_encrypt C D hash md args_key entities md_text key_rnd rnd
       = Raise e.
Proof.
  intros H.
  assert (Ha : exists e, analyze_pii D md_text entities = Raise e).
  { unfold analyze_pii.
    destruct H as [[e Hi]|[(e1 & e2 & e3 & H1 & H2 & H3)|(a & e & Hb & Hr)]].
    - rewrite Hi. eexists. reflexivity.
    - unfold build_analyzer. rewrite H1, H2, H3.
      destruct (imported D) as [[]|e]; eexists; reflexivity.
    - rewrite Hb. destruct (imported D) as [[]|e']; cbn [bind].
      + rewrite Hr. eexists. reflexivity.
      + eexists. reflexivity. }
  destruct Ha as [e He]. split; [eauto|]. split; [congruence|].
  unfold main_encrypt. rewrite He.
  destruct md; cbn [bind].
  - destruct (ensure_fernet_key C args_key key_rnd); cbn [bind];
      eexists; reflexivity.
  - eexists; reflexivity.
Qed.

Lemma detector_fail_closed_witness :
  (exists e, analyze_pii missing_detector (lit "Contact: john@example.com")
               None = Raise e)
  /\ analyze_pii missing_detector (lit "Contact: john@example.com") None
     <> Ok []
  /\ exists e,
       main_encrypt Hex.cipher missing_detector hash_a anonymize None None
         (lit "Contact: john@example.com") tt (fun _ => tt)
       = Raise e.
Proof.
  apply (detector_fail_closed Hex.cipher missing_detector hash_a anonymize
           None None (lit "Contact: john@example.com") tt (fun _ => tt)).
  right. left. exists External, External, External.
  repeat split; reflexivity.
Defined.

(** * Further properties *)

(** ** More on the line index *)

Lemma newline_ends_length pos s :
  List.length (newline_ends pos s) = newlines s.
Proof.
  revert pos; induction s as [|c s IH]; intros pos; [reflexivity|].
  unfold newlines in *. cbn [newline_ends count_occ].
  destruct (Ascii.eqb_spec c newline) as [->|Hne].
  - destruct (ascii_dec newline newline); [|congruence].
    cbn [List.length]. rewrite IH. reflexivity.
  - destruct (ascii_dec c newline); [congruence|]. apply IH.
Qed.

Lemma newline_ends_iff pos s x :
  In x (newline_ends pos s) <->
  exists k, nth_error s k = Some newline /\ x = pos + Z.of_nat k + 1.
Proof.
  split.
  - revert pos; induction s as [|c s IH]; intros pos H; [destruct H|].
    cbn [newline_ends] in H.
    destruct (Ascii.eqb_spec c newline) as [->|Hne].
    + destruct H as [<-|H].
      * exists 0%nat. split; [reflexivity | lia].
      * destruct (IH _ H) as (k & Hk & ->). exists (S k). split; [exact Hk|lia].
    + destruct (IH _ H) as (k & Hk & ->). exists (S k). split; [exact Hk|lia].
  - intros (k & Hk & ->). apply newline_ends_mem. exact Hk.
Qed.

(** X1.  The line index of a text has one entry per line, one more than the
    text has newlines; it is strictly ascending, and its entries are 0 and
    the offsets directly behind the newlines, nothing else. *)
Theorem line_index_shape (md_text : str) :
  let line_starts := calculate_line_col_map md_text in
  List.length line_starts = S (newlines md_text)
  /\ StronglySorted Z.lt line_starts
  /\ (forall s, In s line_starts <->
                s = 0
                \/ exists k, nth_error md_text k = Some newline
                             /\ s = Z.of_nat k + 1).
Proof.
  intros line_starts. unfold line_starts, calculate_line_col_map.
  split; [cbn [List.length]; rewrite newline_ends_length; reflexivity|].
  split; [apply line_starts_sorted|].
  intros s. cbn [In]. rewrite newline_ends_iff. split.
  - intros [<-|(k & Hk & ->)]; [left; reflexivity|].
    right. exists k. split; [exact Hk | lia].
  - intros [->|(k & Hk & ->)]; [left; reflexivity|].
    right. exists k. split; [exact Hk | lia].
Qed.

Lemma scan_lines_above offset i line_index ls :
  Forall (fun x => offset < x) ls ->
  scan_lines offset i line_index ls = line_index.
Proof.
  intros H. destruct H as [|x l Hx _]; [reflexivity|].
  cbn [scan_lines]. destruct (Z.leb_spec x offset); [lia | reflexivity].
Qed.

(** The scan over the line starts counts the newlines before the offset. *)
Lemma scan_newline_ends s :
  forall pos n i line_index,
    scan_lines (pos + Z.of_nat n) i line_index (newline_ends pos s)
    = match newlines (firstn n s) with
      | O => line_index
      | S c => (i + c)%nat
      end.
Proof.
  unfold newlines.
  induction s as [|c s IH]; intros pos n i line_index.
  - rewrite firstn_nil. reflexivity.
  - destruct n as [|n].
    + cbn [firstn count_occ]. apply scan_lines_above.
      eapply Forall_impl; [|apply newline_ends_above].
      intros x Hx. cbv beta in Hx. lia.
    + cbn [firstn count_occ newline_ends].
      replace (pos + Z.of_nat (S n)) with (pos + 1 + Z.of_nat n) by lia.
      destruct (Ascii.eqb_spec c newline) as [->|Hne].
      * destruct (ascii_dec newline newline); [|congruence].
        cbn [scan_lines].
        destruct (Z.leb_spec (pos + 1) (pos + 1 + Z.of_nat n)); [|lia].
        rewrite IH. destruct (count_occ ascii_dec (firstn n s) newline); lia.
      * destruct (ascii_dec c newline); [congruence|]. apply IH.
Qed.

Lemma in_slice s a b x :
  0 <= a <= len s -> 0 <= b <= len s ->
  In x (slice s a b) ->
  exists j, a <= Z.of_nat j < b /\ nth_error s j = Some x.
Proof.
  intros Ha Hb H. rewrite slice_firstn_skipn in H by assumption.
  apply In_nth_error in H as [i Hi].
  rewrite nth_error_firstn in Hi.
  destruct (Nat.ltb_spec i (Z.to_nat b - Z.to_nat a)); [|discriminate].
  rewrite nth_error_skipn in Hi.
  exists (Z.to_nat a + i)%nat. split; [lia | exact Hi].
Qed.

(** X2.  For an offset within the text, the line the resolver returns is
    one more than the number of newlines before the offset, and the column
    counts the characters since the start of that line: there is no newline
    among the [col - 1] characters before the offset, and before them the
    text starts or a newline stands. *)
Theorem line_and_column_by_counting (md_text : str) (offset : Z) :
  0 <= offset <= len md_text ->
  exists line col,
    offset_to_line_col offset (calculate_line_col_map md_text)
    = Some (line, col)
    /\ line = Z.of_nat (newlines (slice_to md_text offset)) + 1
    /\ 1 <= col <= offset + 1
    /\ ~ In newline (slice md_text (offset - col + 1) offset)
    /\ (col = offset + 1
        \/ nth_error md_text (Z.to_nat (offset - col)) = Some newline).
Proof.
  intros Hoff.
  pose proof (line_starts_sorted md_text) as Hs.
  destruct (offset_to_line_col_spec (calculate_line_col_map md_text) offset Hs)
    as (k & s & Hr & Hk & Hle & Hmax);
    [exists 0; split; [reflexivity | lia]|].
  assert (Hline : scan_lines offset 0 0 (calculate_line_col_map md_text)
                  = newlines (slice_to md_text offset)).
  { unfold calculate_line_col_map. cbn [scan_lines].
    destruct (Z.leb_spec 0 offset); [|lia].
    rewrite slice_to_firstn by lia.
    pose proof (scan_newline_ends md_text 0 (Z.to_nat offset) 1 0) as E.
    replace (0 + Z.of_nat (Z.to_nat offset)) with offset in E by lia.
    rewrite E. destruct (newlines (firstn (Z.to_nat offset) md_text));
      reflexivity. }
  assert (Hk' : k = newlines (slice_to md_text offset)).
  { unfold offset_to_line_col in Hr. rewrite Hline in Hr.
    destruct (nth_error (calculate_line_col_map md_text)
                (newlines (slice_to md_text offset))); [|discriminate].
    injection Hr as Hr _. lia. }
  assert (Hs0 : 0 <= s).
  { destruct k as [|k]; [injection Hk as <-; lia|].
    pose proof (sorted_nth_lt _ Hs 0%nat (S k) 0 s eq_refl Hk). lia. }
  exists (Z.of_nat k + 1), (offset - s + 1).
  split; [exact Hr|]. split; [lia|]. split; [lia|].
  replace (offset - (offset - s + 1) + 1) with s by lia.
  replace (offset - (offset - s + 1)) with (s - 1) by lia.
  split.
  - intros Hin. apply in_slice in Hin as (j & Hj & Hnl); [|lia..].
    assert (Hmem : In (Z.of_nat j + 1) (calculate_line_col_map md_text)).
    { right. apply (newline_ends_mem 0 md_text j Hnl). }
    apply In_nth_error in Hmem as [q Hq].
    pose proof (Hmax q _ Hq ltac:(lia)) as Hqk.
    destruct (Nat.eq_dec q k) as [->|Hne].
    + rewrite Hk in Hq. injection Hq as Hq. lia.
    + pose proof (sorted_nth_lt _ Hs q k _ _ Hq Hk ltac:(lia)). lia.
  - destruct (Z.eq_dec s 0) as [->|Hne]; [left; lia|]. right.
    assert (Hin : In s (calculate_line_col_map md_text))
      by (eapply nth_error_In; eauto).
    destruct Hin as [Hin|Hin]; [lia|].
    apply newline_ends_iff in Hin as (j & Hj & ->).
    replace (Z.to_nat (0 + Z.of_nat j + 1 - 1)) with j by lia. exact Hj.
Qed.

Lemma line_and_column_by_counting_witness :
  exists line col,
    offset_to_line_col 4 (calculate_line_col_map two_lines)
    = Some (line, col)
    /\ line = 2 /\ col = 2.
Proof.
  destruct (line_and_column_by_counting two_lines 4)
    as (line & col & Hr & Hl & _).
  - vm_compute. split; discriminate.
  - exists line, col. split; [exact Hr|].
    vm_compute in Hr. injection Hr as <- <-. split; reflexivity.
Defined.

(** ** What [analyze_pii] returns *)

Lemma scan_lines_bound offset ls :
  forall i line_index,
    scan_lines offset i line_index ls = line_index
    \/ (i <= scan_lines offset i line_index ls < i + List.length ls)%nat.
Proof.
  induction ls as [|s ls IH]; intros i line_index; cbn [scan_lines].
  - left; reflexivity.
  - destruct (s <=? offset); [|left; reflexivity].
    right. cbn [List.length]. destruct (IH (S i) i) as [->|H]; lia.
Qed.

(** On the line index of a text the resolver returns for every offset, also
    a negative one or one behind the end of the text. *)
Lemma offset_to_line_col_total offset md_text :
  exists l c,
    offset_to_line_col offset (calculate_line_col_map md_text) = Some (l, c).
Proof.
  unfold offset_to_line_col.
  set (ls := calculate_line_col_map md_text).
  assert (Hlen : (scan_lines offset 0 0 ls < List.length ls)%nat).
  { destruct (scan_lines_bound offset ls 0 0) as [->|H]; [|lia].
    unfold ls, calculate_line_col_map. cbn [List.length]. lia. }
  apply nth_error_Some in Hlen.
  destruct (nth_error ls (scan_lines offset 0 0 ls)); [|congruence].
  eauto.
Qed.

Lemma to_matches_built md_text results :
  exists ms,
    to_matches md_text (calculate_line_col_map md_text) results = Ok ms
    /\ Forall2 (built_from md_text) results ms.
Proof.
  induction results as [|r results (ms & E & HF)].
  - exists []. split; [reflexivity | constructor].
  - destruct (offset_to_line_col_total (r_start r) md_text) as (l & c & Hlc).
    cbn [to_matches]. rewrite Hlc, E. cbn [bind].
    eexists. split; [reflexivity|]. constructor; [|exact HF].
    unfold built_from. cbn. auto 10.
Qed.

(** X3.  When the analyzer is built and returns, [analyze_pii] returns one
    match per result, in the same order, with the result's span and entity
    type, the score (0.0 for none), the substring [md_text[start:end]] as
    captured text and the line and column of [start]; it does so for every
    span, also one outside the text. *)
Theorem analyze_pii_matches (D : Detector) (md_text : str)
  (entities : option (list str)) (a : analyzer D)
  (results : list RecognizerResult) :
  build_analyzer D = Ok a ->
  analyze D a md_text entities = Ok results ->
  exists ms,
    analyze_pii D md_text entities = Ok ms
    /\ Forall2 (built_from md_text) results ms
    /\ Forall (fun m => captured md_text m = true) ms.
Proof.
  intros Hb Hr. destruct (to_matches_built md_text results) as (ms & E & HF).
  exists ms. split; [|split; [exact HF|]].
  - unfold analyze_pii. rewrite Hb.
    unfold build_analyzer in Hb.
    destruct (imported D) as [[]|e]; [|discriminate].
    cbn [bind]. rewrite Hr. exact E.
  - clear -HF. induction HF as [|r m rs ms Hm _ IH]; constructor; [|exact IH].
    destruct Hm as (Hs & He & _ & _ & Ht & _).
    unfold captured. rewrite Ht, Hs, He. apply str_eqb_eq. reflexivity.
Qed.

Lemma analyze_pii_matches_witness :
  exists ms,
    analyze_pii
      (fixed_detector [{| r_start := 9; r_end := 25;
                          r_entity_type := lit "EMAIL_ADDRESS";
                          r_score := Some 0.5%float |}])
      (lit "Contact: john@example.com") None = Ok ms
    /\ ms = [detected 9 25 "EMAIL_ADDRESS" "john@example.com"].
Proof.
  destruct (analyze_pii_matches
              (fixed_detector [{| r_start := 9; r_end := 25;
                                  r_entity_type := lit "EMAIL_ADDRESS";
                                  r_score := Some 0.5%float |}])
              (lit "Contact: john@example.com") None tt
              [{| r_start := 9; r_end := 25;
                  r_entity_type := lit "EMAIL_ADDRESS";
                  r_score := Some 0.5%float |}] eq_refl eq_refl)
    as (ms & E & _).
  exists ms. split; [exact E|].
  vm_compute in E. injection E as <-. reflexivity.
Defined.

(** ** The layout of a rewritten text *)

Lemma in_order_le from ms upto : in_order from ms upto -> from <= upto.
Proof.
  revert from; induction ms as [|m ms IH]; intros from; cbn [in_order].
  - auto.
  - intros (H1 & H2 & H3). specialize (IH _ H3). lia.
Qed.

Lemma in_order_starts from ms upto :
  in_order from ms upto -> Forall (fun m => from <= start m) ms.
Proof.
  revert from; induction ms as [|m ms IH]; intros from; cbn [in_order].
  - constructor.
  - intros (H1 & H2 & H3). constructor; [exact H1|].
    eapply Forall_impl; [|apply (IH _ H3)]. cbv beta. intros; lia.
Qed.

Lemma splice_all_app buf l l' :
  splice_all buf (l ++ l') = splice_all (splice_all buf l) l'.
Proof.
  revert buf; induction l as [|[m r] l IH]; intros buf; [reflexivity|].
  cbn [app splice_all]. apply IH.
Qed.

Lemma slice_to_then s a b :
  0 <= a <= b -> b <= len s -> slice_to s a ++ slice s a b = slice_to s b.
Proof.
  intros Hab Hb. apply (app_inv_tail (slice_from s b)).
  rewrite <- app_assoc, slice_then_from, !slice_to_from by lia. reflexivity.
Qed.

Lemma slice_to_zero s : slice_to s 0 = [].
Proof.
  unfold slice_to. rewrite clamp_id by (pose proof (len_nonneg s); lia).
  reflexivity.
Qed.

Lemma slice_empty s a : slice s a a = [].
Proof. unfold slice. rewrite Nat.sub_diag. reflexivity. Qed.

(** Splicing the matches from the last to the first leaves the text between
    them where it was. *)
Lemma splice_all_laid_out md_text l :
  forall from,
    0 <= from -> in_order from (map fst l) (len md_text) ->
    splice_all md_text (rev l)
    = slice_to md_text from ++ laid_out md_text from l.
Proof.
  induction l as [|[m r] l IH]; intros from H0 Hord.
  - cbn. symmetry. apply slice_to_from.
  - cbn [map fst in_order] in Hord. destruct Hord as (H1 & H2 & H3).
    pose proof (in_order_le _ _ _ H3) as Hle.
    cbn [rev laid_out]. rewrite splice_all_app. cbn [splice_all].
    rewrite (IH (end_ m)) by (auto; lia).
    rewrite splice_untouched by lia.
    rewrite slice_empty. cbn [app].
    rewrite <- (slice_to_then md_text from (start m)) by lia.
    rewrite <- app_assoc. reflexivity.
Qed.

Lemma in_order_sorted from ms upto :
  in_order from ms upto -> StronglySorted starts_lt ms.
Proof.
  revert from; induction ms as [|m ms IH]; intros from; cbn [in_order].
  - constructor.
  - intros (H1 & H2 & H3). constructor; [apply (IH _ H3)|].
    eapply Forall_impl; [|apply (in_order_starts _ _ _ H3)].
    unfold starts_lt. cbv beta. intros; lia.
Qed.

Lemma sorted_snoc {A} (R : A -> A -> Prop) l x :
  StronglySorted R l -> Forall (fun y => R y x) l ->
  StronglySorted R (l ++ [x]).
Proof.
  induction 1 as [|a l Hs IH Ha]; intros Hx; cbn [app].
  - repeat constructor.
  - inversion Hx as [|? ? Hax Hlx]; subst.
    constructor; [apply IH; exact Hlx|].
    apply Forall_app. split; [exact Ha | repeat constructor; exact Hax].
Qed.

Lemma sorted_rev ms :
  StronglySorted starts_lt ms -> StronglySorted starts_gt (rev ms).
Proof.
  induction 1 as [|m ms Hs IH Hm]; [constructor|].
  cbn [rev]. apply sorted_snoc; [exact IH|].
  apply Forall_rev. eapply Forall_impl; [|exact Hm].
  unfold starts_lt, starts_gt. auto.
Qed.

Lemma sorted_distinct ms :
  StronglySorted starts_lt ms -> distinct_starts ms = true.
Proof.
  induction 1 as [|m ms Hs IH Hm]; [reflexivity|].
  cbn [distinct_starts pairwise]. apply andb_true_iff. split; [|exact IH].
  apply forallb_forall. intros x Hx. rewrite Forall_forall in Hm.
  specialize (Hm x Hx). unfold starts_lt in Hm.
  apply negb_true_iff, Z.eqb_neq. lia.
Qed.

(** The sorted matches are the matches in document order, read backwards. *)
Lemma matches_sorted_in_order ms asc from upto :
  Permutation ms asc -> in_order from asc upto ->
  matches_sorted ms = rev asc.
Proof.
  intros Hp Hord. pose proof (in_order_sorted _ _ _ Hord) as Hs.
  apply strict_sorted_unique.
  - apply sorted_distinct_strict; [apply matches_sorted_sorted|].
    rewrite (distinct_starts_perm _ _ (matches_sorted_perm ms)).
    rewrite (distinct_starts_perm _ _ Hp). apply sorted_distinct. exact Hs.
  - apply sorted_rev. exact Hs.
  - rewrite (matches_sorted_perm ms), Hp. apply Permutation_rev.
Qed.

(** X4.  For non-empty matches that do not intersect and lie within the
    text, given in any order, anonymize mode returns the text with each span
    replaced by its placeholder and every character outside the spans where
    it was. *)
Theorem anonymized_layout (hash : str -> Z) (md_text : str)
  (ms asc : list PiiMatch) :
  Permutation ms asc ->
  in_order 0 asc (len md_text) ->
  apply_anonymization_replacements hash md_text ms
  = laid_out md_text 0 (map (fun m => (m, placeholder hash m)) asc).
Proof.
  intros Hp Hord. unfold apply_anonymization_replacements.
  rewrite (matches_sorted_in_order ms asc 0 (len md_text) Hp Hord).
  rewrite anonymization_loop_splice_all, map_rev.
  rewrite (splice_all_laid_out md_text _ 0);
    [rewrite slice_to_zero; reflexivity | lia|].
  rewrite map_map. cbn [fst]. rewrite map_id. exact Hord.
Qed.

Lemma anonymized_layout_witness :
  apply_anonymization_replacements hash_a (lit "abcde")
    [detected 3 4 "B" "d"; detected 0 1 "A" "a"]
  = lit "[A_1]bc[B_1]e".
Proof.
  apply (anonymized_layout hash_a (lit "abcde")
           [detected 3 4 "B" "d"; detected 0 1 "A" "a"]
           [detected 0 1 "A" "a"; detected 3 4 "B" "d"]).
  - apply perm_swap.
  - vm_compute. repeat split; discriminate.
Defined.

Lemma combine_append {A B} (l1 l2 : list A) (l1' l2' : list B) :
  List.length l1 = List.length l1' ->
  combine (l1 ++ l2) (l1' ++ l2') = combine l1 l1' ++ combine l2 l2'.
Proof.
  revert l1'; induction l1 as [|a l1 IH]; intros [|b l1'] H;
    try discriminate; [reflexivity|].
  cbn [app combine]. f_equal. apply IH. injection H as H. exact H.
Qed.

Lemma map_fst_combine {A B} (l : list A) (l' : list B) :
  List.length l = List.length l' -> map fst (combine l l') = l.
Proof.
  revert l'; induction l as [|a l IH]; intros [|b l'] H;
    try discriminate; [reflexivity|].
  cbn [combine map fst]. f_equal. apply IH. injection H as H. exact H.
Qed.

Lemma combine_rev {A B} (l : list A) (l' : list B) :
  List.length l = List.length l' ->
  combine (rev l) (rev l') = rev (combine l l').
Proof.
  revert l'; induction l as [|a l IH]; intros [|b l'] H;
    try discriminate; [reflexivity|].
  cbn [rev combine]. injection H as H.
  rewrite <- IH by exact H.
  rewrite combine_append by (rewrite !length_rev; exact H). reflexivity.
Qed.

(** X5.  For the same matches encrypt mode returns the text with each span
    replaced by its marker and every character outside the spans where it
    was; the markers are made from the last match to the first, and the
    function fails exactly when one call of the cipher does. *)
Theorem encrypted_layout (C : Cipher) (md_text : str)
  (ms asc : list PiiMatch) (key_b64 : key C) (rnd : nat -> nonce C) :
  Permutation ms asc ->
  in_order 0 asc (len md_text) ->
  apply_encryption_replacements C md_text ms key_b64 rnd
  = match inserted_markers C (rev asc) key_b64 rnd 0 with
    | Some markers =>
        Some (laid_out md_text 0 (combine asc (rev markers)))
    | None => None
    end.
Proof.
  intros Hp Hord. unfold apply_encryption_replacements.
  rewrite (matches_sorted_in_order ms asc 0 (len md_text) Hp Hord).
  rewrite encryption_loop_splice_all.
  destruct (inserted_markers C (rev asc) key_b64 rnd 0) as [markers|] eqn:E;
    [|reflexivity].
  cbn [option_map]. f_equal.
  pose proof (inserted_markers_length _ _ _ _ _ _ E) as Hlen.
  rewrite length_rev in Hlen.
  rewrite <- (rev_involutive markers) at 1.
  rewrite combine_rev by (rewrite length_rev; lia).
  rewrite (splice_all_laid_out md_text _ 0);
    [rewrite slice_to_zero; reflexivity | lia|].
  rewrite map_fst_combine by (rewrite length_rev; lia). exact Hord.
Qed.

Lemma encrypted_layout_witness :
  apply_encryption_replacements Hex.cipher (lit "abcde")
    [detected 3 4 "B" "d"; detected 0 1 "A" "a"] "K"%char (fun _ => tt)
  = Some (lit "{{ENC:A:4b61}}bc{{ENC:B:4b64}}e").
Proof.
  apply (encrypted_layout Hex.cipher (lit "abcde")
           [detected 3 4 "B" "d"; detected 0 1 "A" "a"]
           [detected 0 1 "A" "a"; detected 3 4 "B" "d"] "K"%char
           (fun _ => tt)).
  - apply perm_swap.
  - vm_compute. repeat split; discriminate.
Defined.

(** ** The number in a placeholder *)

Lemma short_numbers_below_10000 :
  forallb (fun k => short_number (str_of_int (Z.of_nat k)))
    (seq 0 (Z.to_nat 10000))
  = true.
Proof. vm_compute. reflexivity. Qed.

Lemma str_of_int_short n :
  0 <= n < 10000 -> short_number (str_of_int n) = true.
Proof.
  intros H. pose proof short_numbers_below_10000 as Hall.
  rewrite forallb_forall in Hall.
  specialize (Hall (Z.to_nat n)). rewrite Z2Nat.id in Hall by lia.
  apply Hall. apply in_seq. lia.
Qed.

(** X6.  Whatever the interpreter's hash of the matched text is, also a
    negative one, the placeholder is the entity type between "[" and "_",
    then one to four decimal digits, then "]": it is 4 to 7 characters longer
    than the entity type. *)
Theorem placeholder_shape (hash : str -> Z) (m : PiiMatch) :
  exists digits,
    placeholder hash m
    = lit "[" ++ entity_type m ++ lit "_" ++ digits ++ lit "]"
    /\ short_number digits = true
    /\ len (entity_type m) + 4 <= len (placeholder hash m)
       <= len (entity_type m) + 7.
Proof.
  exists (str_of_int (Z.abs (hash (text m)) mod 10000)).
  assert (Hs : short_number (str_of_int (Z.abs (hash (text m)) mod 10000))
               = true)
    by (apply str_of_int_short, Z.mod_pos_bound; lia).
  split; [reflexivity|]. split; [exact Hs|].
  unfold short_number in Hs. rewrite !andb_true_iff, !Z.leb_le in Hs.
  unfold placeholder. rewrite !len_app.
  change (len (lit "[")) with 1. change (len (lit "_")) with 1.
  change (len (lit "]")) with 1. lia.
Qed.

(** ** The per-type counts of the audit event *)

Lemma str_eqb_refl k : PyStr.eqb k k = true.
Proof. apply str_eqb_eq. reflexivity. Qed.

Lemma str_eqb_neq a b : a <> b -> PyStr.eqb a b = false.
Proof.
  intros H. destruct (PyStr.eqb a b) eqn:E; [|reflexivity].
  apply str_eqb_eq in E. contradiction.
Qed.

Lemma dict_get_set d k v k' default :
  dict_get (dict_set d k v) k' default
  = if PyStr.eqb k k' then v else dict_get d k' default.
Proof.
  induction d as [|[k0 v0] d IH]; cbn [dict_set dict_get].
  - reflexivity.
  - destruct (PyStr.eqb k0 k) eqn:E0.
    + apply str_eqb_eq in E0. subst k0. cbn [dict_get].
      destruct (PyStr.eqb k k'); reflexivity.
    + cbn [dict_get]. destruct (PyStr.eqb k0 k') eqn:E1; [|exact IH].
      apply str_eqb_eq in E1. subst k0.
      destruct (PyStr.eqb k k') eqn:E2; [|reflexivity].
      apply str_eqb_eq in E2. subst k'. rewrite str_eqb_refl in E0.
      discriminate.
Qed.

Lemma dict_get_absent d k default :
  ~ In k (map fst d) -> dict_get d k default = default.
Proof.
  induction d as [|[k0 v0] d IH]; intros H; [reflexivity|].
  cbn [dict_get]. cbn [map fst In] in H.
  rewrite str_eqb_neq by tauto. apply IH. tauto.
Qed.

Lemma dict_set_keys d k v :
  map fst (dict_set d k v)
  = if in_dec str_eq_dec k (map fst d)
    then map fst d else map fst d ++ [k].
Proof.
  induction d as [|[k0 v0] d IH]; [reflexivity|].
  cbn [dict_set map fst].
  destruct (PyStr.eqb k0 k) eqn:E0.
  - apply str_eqb_eq in E0. subst k0. cbn [map fst].
    destruct (in_dec str_eq_dec k (k :: map fst d)) as [_|H]; [reflexivity|].
    exfalso. apply H. left; reflexivity.
  - cbn [map fst]. rewrite IH.
    assert (k0 <> k) by (intros ->; rewrite str_eqb_refl in E0; discriminate).
    destruct (in_dec str_eq_dec k (map fst d)) as [Hin|Hout];
      destruct (in_dec str_eq_dec k (k0 :: map fst d)) as [Hin'|Hout'];
      try reflexivity.
    + exfalso. apply Hout'. right; exact Hin.
    + exfalso. destruct Hin' as [|Hin']; [contradiction | exact (Hout Hin')].
Qed.

Lemma dict_set_total d k v :
  dict_total (dict_set d k v) = dict_total d - dict_get d k 0 + v.
Proof.
  unfold dict_total.
  induction d as [|[k0 v0] d IH]; cbn [dict_set dict_get fold_right snd].
  - lia.
  - destruct (PyStr.eqb k0 k); cbn [fold_right snd]; lia.
Qed.

Lemma matches_of_type_snoc t ms m :
  matches_of_type t (ms ++ [m])
  = (matches_of_type t ms + if PyStr.eqb (entity_type m) t then 1 else 0)%nat.
Proof.
  unfold matches_of_type. rewrite map_app, count_occ_app. f_equal.
  cbn [map count_occ].
  destruct (str_eq_dec (entity_type m) t) as [->|Hne].
  - rewrite str_eqb_refl. reflexivity.
  - rewrite str_eqb_neq by exact Hne. reflexivity.
Qed.

Lemma entity_counts_snoc ms m :
  entity_counts (ms ++ [m])
  = dict_set (entity_counts ms) (entity_type m)
      (dict_get (entity_counts ms) (entity_type m) 0 + 1).
Proof. unfold entity_counts. rewrite fold_left_app. reflexivity. Qed.

(** X7.  The per-type counts of the audit event add up to the number of
    matches ([pii_total]); each entity type that occurs has one entry, and
    its count is the number of matches of that type. *)
Theorem entity_counts_add_up (matches : list PiiMatch) :
  let counts := entity_counts matches in
  dict_total counts = Z.of_nat (List.length matches)
  /\ NoDup (map fst counts)
  /\ (forall t, dict_get counts t 0 = Z.of_nat (matches_of_type t matches))
  /\ (forall t, In t (map fst counts) <-> In t (map entity_type matches)).
Proof.
  cbv zeta.
  induction matches as [|m ms (Htot & Hnd & Hget & Hkeys)] using rev_ind.
  - cbn. repeat split; try constructor; tauto.
  - rewrite entity_counts_snoc.
    set (counts := entity_counts ms) in *.
    split; [|split; [|split]].
    + rewrite dict_set_total, Htot, length_app. cbn [List.length]. lia.
    + rewrite dict_set_keys.
      destruct (in_dec str_eq_dec (entity_type m) (map fst counts))
        as [Hin|Hout];
        [exact Hnd|].
      apply NoDup_rev in Hnd. rewrite <- (rev_involutive (_ ++ _)).
      apply NoDup_rev. rewrite rev_app_distr. cbn [rev app].
      constructor; [|exact Hnd]. rewrite <- in_rev. exact Hout.
    + intros t. rewrite dict_get_set, matches_of_type_snoc, !Hget.
      destruct (PyStr.eqb (entity_type m) t) eqn:E; [|lia].
      apply str_eqb_eq in E. subst t. lia.
    + intros t. rewrite dict_set_keys, map_app, in_app_iff. cbn [map In].
      destruct (in_dec str_eq_dec (entity_type m) (map fst counts))
        as [Hin|Hout].
      * rewrite Hkeys. split; [tauto|].
        intros [H|[<-|[]]]; [exact H | apply Hkeys; exact Hin].
      * rewrite in_app_iff, Hkeys. cbn [In]. tauto.
Qed.

(** ** Decryption under a key that decrypts nothing *)

Lemma substituted_unchanged repl segs tail :
  Forall (fun sg => repl (fst (snd sg)) (snd (snd sg))
                    = safe_token (fst (snd sg)) (snd (snd sg))) segs ->
  substituted repl segs tail = document segs tail.
Proof.
  induction 1 as [|[g [e t]] segs Hsg _ IH]; [reflexivity|].
  cbn [fst snd] in Hsg. cbn [substituted document]. rewrite Hsg, IH.
  reflexivity.
Qed.

(** X8.  When no token found in a document decrypts under the key (a wrong
    key, for instance), the decryption pass returns the document as it is. *)
Theorem decrypt_keeps_undecryptable (C : Cipher) (key_b64 : key C)
  (md_text : str) :
  (forall entity token,
      In (entity, token) (ENCODED_PATTERN_findall md_text) ->
      decrypt_text C token key_b64 = None) ->
  decrypt_markers C md_text key_b64 = md_text.
Proof.
  intros Hnone.
  destruct (document_layout md_text) as (segs & tail & -> & Hwf).
  rewrite (findall_document segs tail Hwf) in Hnone.
  unfold decrypt_markers. rewrite (sub_document _ segs tail Hwf).
  apply substituted_unchanged. apply Forall_forall.
  intros [g [e t]] Hin. cbn [fst snd]. unfold _replace.
  rewrite (Hnone e t); [reflexivity|].
  apply in_map_iff. exists (g, (e, t)). split; [reflexivity | exact Hin].
Qed.

Lemma decrypt_keeps_undecryptable_witness :
  decrypt_markers Hex.cipher
    (lit "see {{ENC:A:4b78}} and {{ENC:B:4b79}}.") "L"%char
  = lit "see {{ENC:A:4b78}} and {{ENC:B:4b79}}.".
Proof.
  apply (decrypt_keeps_undecryptable Hex.cipher "L"%char
           (lit "see {{ENC:A:4b78}} and {{ENC:B:4b79}}.")).
  intros entity token Hin. vm_compute in Hin.
  destruct Hin as [E|[E|[]]]; injection E as <- <-; reflexivity.
Defined.

(** ** The encrypt command followed by the decrypt command *)

Lemma findall_trailing g l :
  marker_free g -> trailing_ok l ->
  ENCODED_PATTERN_findall (g ++ trailing_text l) = map fst l.
Proof.
  intros Hg Hl. unfold ENCODED_PATTERN_findall.
  rewrite (scan_trailing g l Hg Hl), flat_map_app, flat_map_plain,
    flat_map_nil.
  cbn [app]. clear. induction l as [|[[e t] gap] l IH]; [reflexivity|].
  cbn [flat_map map fst snd app].
  rewrite flat_map_app, flat_map_plain, flat_map_nil, IH. reflexivity.
Qed.

Section CommandsRoundTrip.

Variable C : Cipher.
Variable usable : key C -> Prop.
Hypothesis laws : lawful C usable.
Variable key_b64 : key C.
Hypothesis key_usable : usable key_b64.
Variable rnd : nat -> nonce C.
Variable md_text : str.
Hypothesis plain : marker_free md_text.

(** The loop invariant of the round trip, with the number of markers. *)
Lemma encryption_loop_counts ds :
  forall hi l i,
    chained hi ds ->
    Forall (fun d => captured md_text d = true
                     /\ entity_ok (entity_type d) = true) ds ->
    restores C key_b64 md_text hi l ->
    exists lo l',
      encryption_loop C (slice_to md_text hi ++ trailing_text l) ds
        key_b64 rnd i
      = Some (slice_to md_text lo ++ trailing_text l')
      /\ restores C key_b64 md_text lo l'
      /\ List.length l' = (List.length ds + List.length l)%nat.
Proof.
  induction ds as [|d ds IH]; intros hi l i Hch Hds Hinv.
  - exists hi, l. split; [reflexivity|]. split; [exact Hinv | reflexivity].
  - destruct Hch as (H0 & H1 & H2 & Hch).
    inversion Hds as [|? ? [Hcap Hent] Hds']; subst.
    destruct Hinv as (Hhi & Hok & Hsub).
    destruct (encrypt_returns C usable laws (text d) key_b64 (rnd i) key_usable)
      as [tok Htok].
    cbn [encryption_loop]. rewrite Htok.
    rewrite splice_untouched by lia.
    destruct (IH (start d)
                (((entity_type d, tok), slice md_text (end_ d) hi) :: l)
                (S i) Hch Hds') as (lo & l' & Hrun & Hinv' & Hlen).
    + split; [lia|]. split.
      * constructor; [|exact Hok]. cbn [fst snd].
        split; [exact Hent|]. split.
        -- apply token_re_ok. eapply encrypt_token; eauto.
        -- apply marker_free_slice. exact plain.
      * cbn [trailing_sub flat_map fst snd].
        fold (trailing_sub (_replace C key_b64) l).
        rewrite Hsub. unfold _replace.
        rewrite (decrypt_encrypt C usable laws _ _ _ _ Htok).
        apply str_eqb_eq in Hcap. rewrite Hcap, <- app_assoc.
        rewrite (slice_then_from md_text (end_ d) hi) by lia.
        apply slice_then_from; lia.
    + exists lo, l'. split; [|split; [exact Hinv'|]].
      * cbn [trailing_text flat_map fst snd] in Hrun.
        fold (trailing_text l) in Hrun.
        rewrite <- !app_assoc in Hrun. exact Hrun.
      * rewrite Hlen. cbn [List.length]. lia.
Qed.

End CommandsRoundTrip.

Lemma pairwise_transfer {A B} (R : A -> B -> Prop) (f : A -> A -> bool)
  (g : B -> B -> bool) l l' :
  (forall a a' b b', R a a' -> R b b' -> f a b = g a' b') ->
  Forall2 R l l' -> pairwise f l = pairwise g l'.
Proof.
  intros Hfg. induction 1 as [|a a' l l' Ha Hl IH]; [reflexivity|].
  cbn [pairwise]. rewrite IH. f_equal.
  clear IH. induction Hl as [|b b' l l' Hb _ IH]; [reflexivity|].
  cbn [forallb]. rewrite IH, (Hfg a a' b b' Ha Hb). reflexivity.
Qed.

(** What [analyze_pii] makes of spans that are in range, not empty and
    apart is a valid match set. *)
Lemma built_matches_valid md_text results ms :
  Forall2 (built_from md_text) results ms ->
  Forall (result_ok md_text) results ->
  pairwise results_apart results = true ->
  valid_matches md_text ms = true
  /\ forallb nonempty_span ms = true
  /\ Forall (fun m => entity_ok (entity_type m) = true) ms.
Proof.
  intros HF Hok Hap.
  assert (Hpd : pairwise_disjoint ms = true).
  { unfold pairwise_disjoint. rewrite <- Hap. symmetry.
    apply (pairwise_transfer (built_from md_text)); [|exact HF].
    intros a a' b b' (Ha1 & Ha2 & _) (Hb1 & Hb2 & _).
    unfold results_apart, intersects. rewrite Ha1, Ha2, Hb1, Hb2.
    reflexivity. }
  unfold valid_matches. rewrite Hpd, andb_true_r. clear Hap Hpd.
  induction HF as [|r m rs ms Hm _ IH]; [repeat split; constructor|].
  inversion Hok as [|? ? (H0 & H1 & H2 & He) Hok']; subst.
  destruct (IH Hok') as (IH1 & IH2 & IH3).
  destruct Hm as (Hs & He' & Ht & _ & Htx & _).
  cbn [forallb]. rewrite IH1, IH2, !andb_true_r.
  split; [|split].
  - unfold valid_match, in_bounds, captured. rewrite Hs, He', Htx.
    rewrite str_eqb_refl, andb_true_r, !andb_true_iff, !Z.leb_le. lia.
  - unfold nonempty_span. rewrite Hs, He'. apply Z.ltb_lt. lia.
  - constructor; [|exact IH3]. rewrite Ht. apply entity_re_ok. exact He.
Qed.

(** X9.  The two commands compose: under a cipher that keeps its contract
    and a key string the cipher accepts, when the text holds no marker and
    the analyzer returns non-empty spans within the text that do not
    intersect and carry entity types of the pattern, the encrypt command
    returns, reports as many matches as there are spans, and the decrypt
    command run on its output with the same key string returns 0, writes the
    original text and counts as many markers as there were spans. *)
Theorem commands_round_trip (C : Cipher) (usable : key C -> Prop)
  (D : Detector) (hash : str -> Z) (args_key : str) (key_b64 : key C)
  (entities : option (list str)) (md_text : str)
  (key_rnd key_rnd' : nonce C) (rnd : nat -> nonce C)
  (a : analyzer D) (results : list RecognizerResult) :
  lawful C usable ->
  args_key <> [] ->
  b64_normalize C args_key = Some key_b64 ->
  usable key_b64 ->
  marker_free md_text ->
  build_analyzer D = Ok a ->
  analyze D a md_text entities = Ok results ->
  Forall (result_ok md_text) results ->
  pairwise results_apart results = true ->
  exists out,
    main_encrypt C D hash encrypt (Some args_key) entities md_text
      key_rnd rnd = Ok out
    /\ pii_total out = Z.of_nat (List.length results)
    /\ main_decrypt C args_key (out_md out) key_rnd'
       = {| exit_status := 0;
            decrypted_md := Some md_text;
            markers_decrypted := Some (Z.of_nat (List.length results)) |}.
Proof.
  intros laws Hne Hkey Hk Hplain Hb Hr Hok Hap.
  destruct (to_matches_built md_text results) as (ms & Ems & HF).
  assert (Ea : analyze_pii D md_text entities = Ok ms).
  { unfold analyze_pii. rewrite Hb. unfold build_analyzer in Hb.
    destruct (imported D) as [[]|e]; [|discriminate].
    cbn [bind]. rewrite Hr. exact Ems. }
  destruct (built_matches_valid md_text results ms HF Hok Hap)
    as (Hv & Hn & He).
  pose proof (Forall2_length HF) as Hlen.
  apply valid_matches_inv in Hv as [Hall Hd].
  pose proof (matches_sorted_perm ms) as Hp.
  assert (Hall' : Forall (fun d => (in_bounds md_text d = true
                                    /\ captured md_text d = true)
                                   /\ nonempty_span d = true
                                   /\ entity_ok (entity_type d) = true)
                    (matches_sorted ms)).
  { eapply Permutation_Forall; [symmetry; exact Hp|].
    rewrite forallb_forall in Hn. rewrite Forall_forall in *.
    intros m Hm. auto. }
  destruct (encryption_loop_counts C usable laws key_b64 Hk rnd md_text
              Hplain (matches_sorted ms) (len md_text) [] 0%nat)
    as (lo & l & Hrun & (Hlo & Htr & Hsub) & Hcount).
  { apply sorted_chained.
    - apply matches_sorted_sorted.
    - rewrite (pairwise_disjoint_perm _ _ Hp). exact Hd.
    - eapply Forall_impl; [|exact Hall']. intros d ((Hbd & _) & Hnd & _).
      unfold in_bounds, nonempty_span in *.
      rewrite !andb_true_iff, !Z.leb_le in Hbd. apply Z.ltb_lt in Hnd. lia. }
  { eapply Forall_impl; [|exact Hall']. intros d ((_ & Hc) & _ & Hed). auto. }
  { split; [pose proof (len_nonneg md_text); lia|].
    split; [constructor|]. rewrite slice_from_all. reflexivity. }
  cbn [trailing_text flat_map] in Hrun.
  rewrite slice_to_all, app_nil_r in Hrun.
  assert (Hkey' : forall r, ensure_fernet_key C (Some args_key) r = Ok key_b64).
  { intros r. unfold ensure_fernet_key.
    destruct args_key as [|c k]; [congruence|]. rewrite Hkey. reflexivity. }
  eexists. split; [|split].
  - unfold main_encrypt. rewrite Hkey'. cbn [bind]. rewrite Ea. cbn [bind].
    unfold process, apply_encryption_replacements. rewrite Hrun.
    cbn [bind]. reflexivity.
  - cbn [pii_total]. rewrite Hlen. reflexivity.
  - cbn [out_md]. unfold main_decrypt. rewrite Hkey'.
    unfold decrypt_markers.
    rewrite sub_trailing;
      [|apply marker_free_slice_to; exact Hplain | exact Htr].
    rewrite findall_trailing;
      [|apply marker_free_slice_to; exact Hplain | exact Htr].
    rewrite Hsub, slice_to_from, length_map, Hcount.
    rewrite (Permutation_length Hp), <- Hlen, Nat.add_0_r. reflexivity.
Qed.

Lemma commands_round_trip_witness :
  exists out,
    main_encrypt Hex.cipher
      (fixed_detector [{| r_start := 9; r_end := 25;
                          r_entity_type := lit "EMAIL_ADDRESS";
                          r_score := Some 0.5%float |}])
      hash_a encrypt (Some (lit "K")) None
      (lit "Contact: john@example.com") tt (fun _ => tt) = Ok out
    /\ pii_total out = 1
    /\ main_decrypt Hex.cipher (lit "K") (out_md out) tt
       = {| exit_status := 0;
            decrypted_md := Some (lit "Contact: john@example.com");
            markers_decrypted := Some 1 |}.
Proof.
  apply (commands_round_trip Hex.cipher (fun _ => True)
           (fixed_detector [{| r_start := 9; r_end := 25;
                               r_entity_type := lit "EMAIL_ADDRESS";
                               r_score := Some 0.5%float |}])
           hash_a (lit "K") "K"%char None (lit "Contact: john@example.com")
           tt tt (fun _ => tt) tt
           [{| r_start := 9; r_end := 25;
               r_entity_type := lit "EMAIL_ADDRESS";
               r_score := Some 0.5%float |}]
           hex_lawful).
  - discriminate.
  - reflexivity.
  - exact I.
  - apply marker_free_iff. reflexivity.
  - reflexivity.
  - reflexivity.
  - constructor; [|constructor]. unfold result_ok. cbn.
    repeat split; try lia; try discriminate.
    apply entity_re_ok. reflexivity.
  - reflexivity.
Defined.

(** ** Anonymized texts and the marker pattern *)

Lemma marker_head m :
  Re.matches ENCODED_PATTERN m -> exists m', m = brace :: m'.
Proof.
  intros H. apply pattern_matches in H as (e & t & -> & _ & _).
  eexists. reflexivity.
Qed.

(** The characters a marker is made of. *)
Lemma marker_chars c m :
  Re.matches ENCODED_PATTERN m -> In c m ->
  In c (lit "{ENC:}") \/ entity_char c = true
  \/ token_char c = true \/ equals_char c = true.
Proof.
  intros H Hc. apply pattern_matches in H as (e & t & -> & He & Ht).
  apply token_ok_split in Ht as (body & pad & -> & _ & Hb & Hp).
  assert (He' : forallb entity_char e = true)
    by (destruct e; [discriminate | exact He]).
  unfold safe_token in Hc. rewrite !in_app_iff in Hc.
  destruct Hc as [Hc|[Hc|[Hc|[[Hc|Hc]|Hc]]]].
  - left. cbn in Hc |- *. tauto.
  - right; left. exact (proj1 (forallb_forall _ _) He' c Hc).
  - left. cbn in Hc |- *. tauto.
  - right; right; left. exact (proj1 (forallb_forall _ _) Hb c Hc).
  - right; right; right. exact (proj1 (forallb_forall _ _) Hp c Hc).
  - left. cbn in Hc |- *. tauto.
Qed.

Lemma marker_no_bracket m :
  Re.matches ENCODED_PATTERN m -> ~ In "["%char m /\ ~ In "]"%char m.
Proof.
  intros H. split; intros Hc;
    destruct (marker_chars _ _ H Hc) as [Hin|[Hin|[Hin|Hin]]];
    vm_compute in Hin; try discriminate Hin;
    repeat (destruct Hin as [Hin|Hin]; try discriminate Hin); exact Hin.
Qed.

Lemma no_brace_marker_free s : ~ In brace s -> marker_free s.
Proof.
  intros H pre m post -> Hm. destruct (marker_head _ Hm) as [m' ->].
  apply H. rewrite !in_app_iff. right; left; left; reflexivity.
Qed.

Lemma prefix_inside (c : ascii) m : forall u v post,
  ~ In c m -> u ++ c :: v = m ++ post -> exists post', u = m ++ post'.
Proof.
  induction m as [|a m IH]; intros u v post Hc E.
  - exists u. reflexivity.
  - destruct u as [|b u]; cbn [app] in E; injection E as -> E.
    + destruct Hc. left; reflexivity.
    + destruct (IH u v post) as [post' ->];
        [intros H; apply Hc; right; exact H | exact E |].
      exists post'. reflexivity.
Qed.

(** A string without the character [c] lies on one side of an occurrence
    of [c]. *)
Lemma inside_or_after (c : ascii) m pre : forall u v post,
  ~ In c m -> u ++ c :: v = pre ++ m ++ post ->
  (exists post', u = pre ++ m ++ post')
  \/ (exists pre', v = pre' ++ m ++ post).
Proof.
  induction pre as [|p pre IH]; intros u v post Hc E.
  - left. exact (prefix_inside c m u v post Hc E).
  - destruct u as [|b u]; cbn [app] in E; injection E as -> E.
    + right. exists pre. exact E.
    + destruct (IH u v post Hc E) as [[post' ->]|[pre' ->]].
      * left. exists post'. reflexivity.
      * right. exists pre'. reflexivity.
Qed.

Lemma marker_free_around (c : ascii) u v :
  (forall m, Re.matches ENCODED_PATTERN m -> ~ In c m) ->
  marker_free u -> marker_free v -> marker_free (u ++ c :: v).
Proof.
  intros Hc Hu Hv pre m post E Hm.
  destruct (inside_or_after c m pre u v post (Hc m Hm) E)
    as [[post' E']|[pre' E']].
  - exact (Hu _ _ _ E' Hm).
  - exact (Hv _ _ _ E' Hm).
Qed.

Lemma marker_free_slice_from s i :
  marker_free s -> marker_free (slice_from s i).
Proof.
  intros H. apply (marker_free_substring (slice_to s i) _ []).
  rewrite app_nil_r, slice_to_from. exact H.
Qed.

Lemma digits_no_brace d : forallb digit_char d = true -> ~ In brace d.
Proof.
  intros H Hin. pose proof (proj1 (forallb_forall _ _) H _ Hin) as Hd.
  discriminate Hd.
Qed.

Lemma placeholder_marker_free hash m rest :
  ~ In brace (entity_type m) -> marker_free rest ->
  marker_free (placeholder hash m ++ rest).
Proof.
  intros Hty Hrest. unfold placeholder. cbv zeta.
  set (n := Z.abs (hash (text m)) mod 10000).
  assert (Hn : short_number (str_of_int n) = true)
    by (apply str_of_int_short; apply Z.mod_pos_bound; lia).
  unfold short_number in Hn. apply andb_true_iff in Hn as [_ Hd].
  rewrite <- !app_assoc.
  apply (marker_free_around "["%char []);
    [intros x Hx; apply (marker_no_bracket x Hx) | intros [|? ?] x q E Hx |].
  - destruct x; [|discriminate].
    apply marker_head in Hx as [? Hx]. discriminate.
  - discriminate.
  - replace (entity_type m ++ lit "_" ++ str_of_int n ++ lit "]" ++ rest)
      with ((entity_type m ++ lit "_" ++ str_of_int n) ++ "]"%char :: rest)
      by (rewrite <- !app_assoc; reflexivity).
    apply (marker_free_around "]"%char);
      [intros x Hx; apply (marker_no_bracket x Hx) | | exact Hrest].
    apply no_brace_marker_free. rewrite !in_app_iff.
    intros [H|[H|H]]; [exact (Hty H) | | exact (digits_no_brace _ Hd H)].
    cbn in H. destruct H as [H|[]]. discriminate.
Qed.

Lemma laid_out_marker_free hash md_text ms :
  marker_free md_text ->
  Forall (fun m => ~ In brace (entity_type m)) ms ->
  forall from,
    marker_free
      (laid_out md_text from (map (fun m => (m, placeholder hash m)) ms)).
Proof.
  intros Hfree. induction 1 as [|m ms Hm _ IH]; intros from;
    cbn [map laid_out].
  - apply marker_free_slice_from, Hfree.
  - specialize (IH (end_ m)).
    pose proof (placeholder_marker_free hash m _ Hm IH) as Hp.
    unfold placeholder in Hp |- *. cbv zeta in *.
    rewrite <- !app_assoc in Hp |- *.
    apply (marker_free_around "["%char);
      [intros x Hx; apply (marker_no_bracket x Hx) | | ].
    + apply marker_free_slice, Hfree.
    + apply (marker_free_substring ["["%char] _ []).
      rewrite app_nil_r. exact Hp.
Qed.

(** X10. Anonymize mode leaves nothing for the decrypt command: if the
    text holds no marker, the matches are non-empty, within the text and do
    not intersect, and no entity type contains an opening brace, then the
    anonymized text holds no marker, so on it the decrypt command finds
    zero markers and [decrypt_markers] returns it unchanged, whatever the
    cipher and the key. *)
Theorem anonymized_text_holds_no_marker (C : Cipher) (key_b64 : key C)
  (hash : str -> Z) (md_text : str) (ms asc : list PiiMatch) :
  marker_free md_text ->
  Permutation ms asc ->
  in_order 0 asc (len md_text) ->
  Forall (fun m => ~ In brace (entity_type m)) ms ->
  let anonymized := apply_anonymization_replacements hash md_text ms in
  ENCODED_PATTERN_findall anonymized = []
  /\ decrypt_markers C anonymized key_b64 = anonymized.
Proof.
  intros Hfree Hp Hord Hty anonymized.
  assert (H : marker_free anonymized).
  { unfold anonymized, apply_anonymization_replacements.
    rewrite (matches_sorted_in_order ms asc 0 (len md_text) Hp Hord).
    rewrite anonymization_loop_splice_all, map_rev.
    rewrite (splice_all_laid_out md_text _ 0);
      [|lia | rewrite map_map; cbn [fst]; rewrite map_id; exact Hord].
    rewrite slice_to_zero. apply laid_out_marker_free; [exact Hfree|].
    apply Forall_forall. intros m Hm.
    apply (proj1 (Forall_forall _ _) Hty).
    apply (Permutation_in _ (Permutation_sym Hp) Hm). }
  split; [apply marker_free_iff, H|].
  unfold decrypt_markers.
  apply (sub_document (_replace C key_b64) [] anonymized).
  split; [constructor | exact H].
Qed.

Lemma anonymized_text_holds_no_marker_witness :
  let anonymized :=
    apply_anonymization_replacements hash_a (lit "abcde")
      [detected 3 4 "B" "d"; detected 0 1 "A" "a"] in
  ENCODED_PATTERN_findall anonymized = []
  /\ decrypt_markers Hex.cipher anonymized "K"%char = anonymized.
Proof.
  apply (anonymized_text_holds_no_marker Hex.cipher "K"%char hash_a
           (lit "abcde")
           [detected 3 4 "B" "d"; detected 0 1 "A" "a"]
           [detected 0 1 "A" "a"; detected 3 4 "B" "d"]).
  - apply marker_free_iff. reflexivity.
  - apply perm_swap.
  - vm_compute. repeat split; discriminate.
  - repeat constructor; cbn; intros [H|[]]; discriminate.
Defined.

(** ** The key argument of the two commands *)



(** X12. An empty key string counts as no key ([if key_b64:]): the encrypt
    command generates a key as it does without [--key], and the decrypt
    command, whose [--key] is required but may be empty, does not fail
    either: it decrypts with a freshly generated key, writes the result and
    returns 0. *)
Theorem empty_key_is_no_key (C : Cipher) (D : Detector) (hash : str -> Z)
  (entities : option (list str)) (md_text : str)
  (key_rnd : nonce C) (rnd : nat -> nonce C) :
  main_encrypt C D hash encrypt (Some []) entities md_text key_rnd rnd
  = main_encrypt C D hash encrypt None entities md_text key_rnd rnd
  /\ main_decrypt C [] md_text key_rnd
     = {| exit_status := 0;
          decrypted_md :=
            Some (decrypt_markers C md_text (generate_key C key_rnd));
          markers_decrypted :=
            Some (Z.of_nat
                    (List.length (ENCODED_PATTERN_findall md_text))) |}.
Proof. split; reflexivity. Qed.

(** ** Normalizing the text of a PDF *)

(** *** Stripping *)

Lemma rstrip_nil s : rstrip s = [] <-> forallb is_space s = true.
Proof.
  induction s as [|c s IH]; cbn [rstrip forallb]; [tauto|].
  destruct (rstrip s) as [|k kept].
  - destruct (is_space c); cbn [andb].
    + split; [intros _; apply IH; reflexivity | reflexivity].
    + split; discriminate.
  - split; [discriminate|]. intros H. apply andb_true_iff in H as [_ H].
    apply IH in H. discriminate.
Qed.

Lemma rstrip_cons c s :
  rstrip s <> [] -> rstrip (c :: s) = c :: rstrip s.
Proof.
  intros H. cbn [rstrip]. destruct (rstrip s); [congruence | reflexivity].
Qed.

Lemma rstrip_idem s : rstrip (rstrip s) = rstrip s.
Proof.
  induction s as [|c s IH]; [reflexivity|]. cbn [rstrip].
  destruct (rstrip s) as [|k kept] eqn:E.
  - destruct (is_space c) eqn:Ec; [reflexivity|].
    cbn [rstrip]. rewrite Ec. reflexivity.
  - rewrite rstrip_cons; [rewrite IH; reflexivity|]. rewrite IH. discriminate.
Qed.

(** A text stripped on the right, split at its head. *)
Lemma rstrip_fixed_cons c s :
  rstrip (c :: s) = c :: s ->
  rstrip s = s /\ (s = [] -> is_space c = false).
Proof.
  cbn [rstrip]. destruct (rstrip s) as [|k kept] eqn:E.
  - destruct (is_space c); [discriminate|].
    intros H. injection H as <-. split; [exact E | reflexivity].
  - intros H. injection H as <-. split; [reflexivity | discriminate].
Qed.

Lemma rstrip_fixed_build c s :
  rstrip s = s -> (s = [] -> is_space c = false) ->
  rstrip (c :: s) = c :: s.
Proof.
  intros Hs Hc. cbn [rstrip]. rewrite Hs.
  destruct s; [rewrite Hc; reflexivity | reflexivity].
Qed.

Lemma rstrip_snoc_space s w :
  is_space w = true -> rstrip (s ++ [w]) = rstrip s.
Proof.
  intros Hw. induction s as [|c s IH]; cbn [app rstrip].
  - rewrite Hw. reflexivity.
  - rewrite IH. reflexivity.
Qed.

Lemma rstrip_in c s : In c (rstrip s) -> In c s.
Proof.
  induction s as [|d s IH]; [auto|]. cbn [rstrip].
  destruct (rstrip s) as [|k kept].
  - destruct (is_space d); [intros [] | intros [<-|[]]; left; reflexivity].
  - intros [<-|H]; [left; reflexivity | right; apply IH; exact H].
Qed.

Lemma lstrip_in c s : In c (lstrip s) -> In c s.
Proof.
  induction s as [|d s IH]; [auto|]. cbn [lstrip].
  destruct (is_space d); [intros H; right; apply IH; exact H | auto].
Qed.

Lemma lstrip_idem s : lstrip (lstrip s) = lstrip s.
Proof.
  induction s as [|c s IH]; [reflexivity|]. cbn [lstrip].
  destruct (is_space c) eqn:Ec; [exact IH|]. cbn [lstrip]. rewrite Ec.
  reflexivity.
Qed.

Lemma lstrip_keeps_rstripped s : rstrip s = s -> rstrip (lstrip s) = lstrip s.
Proof.
  induction s as [|c s IH]; [reflexivity|]. intros H.
  cbn [lstrip]. destruct (is_space c); [|exact H].
  apply IH. apply (rstrip_fixed_cons c s H).
Qed.

Lemma strip_rstripped s : rstrip (strip s) = strip s.
Proof. apply lstrip_keeps_rstripped, rstrip_idem. Qed.

Lemma strip_idem s : strip (strip s) = strip s.
Proof.
  unfold strip at 1. rewrite strip_rstripped. apply lstrip_idem.
Qed.

Lemma strip_in c s : In c (strip s) -> In c s.
Proof. intros H. apply rstrip_in, lstrip_in, H. Qed.

(** *** Splitting and joining *)

Lemma str_split_cons sep s : exists l ls, str_split sep s = l :: ls.
Proof.
  destruct s as [|c s]; cbn [str_split]; [eauto|].
  destruct (Ascii.eqb c sep); [eauto|].
  destruct (str_split sep s); eauto.
Qed.

Lemma str_join_cons sep l l' ls :
  str_join sep (l :: l' :: ls) = l ++ sep ++ str_join sep (l' :: ls).
Proof. reflexivity. Qed.

Lemma join_split s : str_join [newline] (str_split newline s) = s.
Proof.
  induction s as [|c s IH]; [reflexivity|]. cbn [str_split].
  destruct (str_split_cons newline s) as (l & ls & E). rewrite E in *.
  destruct (Ascii.eqb_spec c newline) as [->|Hne].
  - rewrite str_join_cons, IH. reflexivity.
  - destruct ls as [|l' ls].
    + cbn [str_join] in *. rewrite IH. reflexivity.
    + rewrite str_join_cons in *. rewrite <- IH. reflexivity.
Qed.

Lemma split_lines_no_newline s :
  Forall (fun l => ~ In newline l) (str_split newline s).
Proof.
  induction s as [|c s IH]; cbn [str_split]; [repeat constructor; auto|].
  destruct (str_split_cons newline s) as (l & ls & E). rewrite E in *.
  inversion IH as [|? ? Hl Hls]; subst.
  destruct (Ascii.eqb_spec c newline) as [->|Hne].
  - constructor; [auto | exact IH].
  - constructor; [|exact Hls]. intros [H|H]; [congruence | exact (Hl H)].
Qed.

Lemma split_head_nil s l ls :
  str_split newline s = l :: ls ->
  l = [] -> s = [] \/ exists rest, s = newline :: rest.
Proof.
  destruct s as [|c s]; [auto|]. cbn [str_split]. right.
  destruct (Ascii.eqb_spec c newline) as [->|Hne]; [eauto|].
  destruct (str_split newline s); injection H as <- _; discriminate.
Qed.

Lemma split_in s l c : In l (str_split newline s) -> In c l -> In c s.
Proof.
  revert l; induction s as [|d s IH]; intros l; cbn [str_split].
  - intros [<-|[]] [].
  - destruct (str_split_cons newline s) as (l0 & ls & E). rewrite E in *.
    destruct (Ascii.eqb d newline).
    + intros [<-|H] Hc; [destruct Hc|]. right. apply (IH l); assumption.
    + intros [<-|H] Hc.
      * destruct Hc as [<-|Hc]; [left; reflexivity|].
        right. apply (IH l0); [left; reflexivity | exact Hc].
      * right. apply (IH l); [right; exact H | exact Hc].
Qed.

Lemma join_in c ls :
  In c (str_join [newline] ls) ->
  c = newline \/ exists l, In l ls /\ In c l.
Proof.
  induction ls as [|l ls IH]; [intros []|].
  destruct ls as [|l' ls].
  - cbn [str_join]. intros H. right. exists l.
    split; [left; reflexivity | exact H].
  - rewrite str_join_cons, !in_app_iff. intros [H|[[<-|[]]|H]].
    + right. exists l. split; [left; reflexivity | exact H].
    + left; reflexivity.
    + destruct (IH H) as [->|(l0 & Hl0 & Hc)]; [left; reflexivity|].
      right. exists l0. split; [right; exact Hl0 | exact Hc].
Qed.

(** *** Replacing *)

Lemma replace_in c k old new s :
  In c (replace_from k old new s) -> In c new \/ In c s.
Proof.
  revert k; induction s as [|d s IH]; intros k; [intros []|].
  cbn [replace_from]. destruct k as [|k].
  - destruct (strip_prefix old (d :: s)).
    + rewrite in_app_iff. intros [H|H]; [left; exact H|].
      destruct (IH _ H); [left | right; right]; assumption.
    + intros [<-|H]; [right; left; reflexivity|].
      destruct (IH _ H); [left | right; right]; assumption.
  - intros H. destruct (IH _ H); [left | right; right]; assumption.
Qed.

Lemma replace_absent a old new s :
  ~ In a s -> str_replace (a :: old) new s = s.
Proof.
  unfold str_replace. induction s as [|c s IH]; [reflexivity|].
  intros H. cbn [replace_from strip_prefix].
  destruct (Ascii.eqb_spec a c) as [->|Hne]; [destruct H; left; reflexivity|].
  rewrite IH; [reflexivity|]. intros Hin. apply H. right. exact Hin.
Qed.

Lemma replace_cr_free s : ~ In cr (str_replace [cr] [newline] s).
Proof.
  unfold str_replace. induction s as [|c s IH]; [intros []|].
  cbn [replace_from strip_prefix List.length pred].
  destruct (Ascii.eqb_spec cr c) as [<-|Hne]; cbn [app].
  - intros [H|H]; [discriminate | exact (IH H)].
  - intros [H|H]; [congruence | exact (IH H)].
Qed.

Lemma collapse_in c r s :
  In c (collapse_newlines r s) -> c = newline \/ In c s.
Proof.
  revert r; induction s as [|d s IH]; intros r; cbn [collapse_newlines].
  - intros H. left. exact (repeat_spec _ _ _ H).
  - destruct (Ascii.eqb_spec d newline) as [->|Hne].
    + intros H. destruct (IH _ H); [left | right; right]; assumption.
    + rewrite in_app_iff. intros [H|[<-|H]].
      * left. exact (repeat_spec _ _ _ H).
      * right; left; reflexivity.
      * destruct (IH _ H); [left | right; right]; assumption.
Qed.

Lemma trimmed_lines_in c s :
  In c (str_join [newline] (map rstrip (str_split newline s))) ->
  c = newline \/ In c s.
Proof.
  intros H.
  destruct (join_in _ _ H) as [->|(l & Hl & Hc)]; [left; reflexivity|].
  right. apply in_map_iff in Hl as (l0 & <- & Hl0).
  apply (split_in s l0); [exact Hl0 | apply rstrip_in, Hc].
Qed.

(** Every character of the normalized text is a newline or a character of
    the text the line breaks were normalized in. *)
Lemma normalized_in c text0 :
  In c (_normalize_text text0) ->
  c = newline \/
  In c (str_replace [cr] [newline]
          (str_replace [cr; newline] [newline] text0)).
Proof.
  unfold _normalize_text. rewrite in_app_iff. intros [H|[<-|[]]]; [|auto].
  apply strip_in in H. apply collapse_in in H as [->|H]; [auto|].
  apply trimmed_lines_in in H. exact H.
Qed.

(** *** Lines without trailing blanks *)

Lemma lines_clean_weaken b s :
  lines_clean b s = true -> lines_clean false s = true.
Proof.
  destruct s as [|c s]; cbn [lines_clean]; [reflexivity|].
  destruct (Ascii.eqb c newline); [|auto].
  intros H. apply andb_true_iff in H as [_ H]. exact H.
Qed.

Lemma lines_clean_line l : forall b tail,
  rstrip l = l -> ~ In newline l -> (l = [] -> b = false) ->
  lines_clean b (l ++ tail) = lines_clean false tail.
Proof.
  induction l as [|c l IH]; intros b tail Hr Hn Hb.
  - rewrite Hb; reflexivity.
  - cbn [app lines_clean].
    destruct (Ascii.eqb_spec c newline) as [->|Hne];
      [destruct Hn; left; reflexivity|].
    destruct (rstrip_fixed_cons c l Hr) as [Hl Hc].
    apply IH; [exact Hl | intros H; apply Hn; right; exact H | exact Hc].
Qed.

Lemma lines_clean_join ls :
  Forall (fun l => rstrip l = l) ls ->
  Forall (fun l => ~ In newline l) ls ->
  lines_clean false (str_join [newline] ls) = true.
Proof.
  induction ls as [|l ls IH]; [reflexivity|]. intros Hr Hn.
  inversion Hr as [|? ? Hr1 Hr2]; inversion Hn as [|? ? Hn1 Hn2]; subst.
  destruct ls as [|l' ls].
  - cbn [str_join]. rewrite <- (app_nil_r l).
    rewrite lines_clean_line; [reflexivity | assumption..| reflexivity].
  - rewrite str_join_cons.
    rewrite lines_clean_line; [| assumption..| reflexivity].
    cbn [app lines_clean]. rewrite Ascii.eqb_refl. apply IH; assumption.
Qed.

Lemma lines_clean_trimmed s :
  lines_clean false
    (str_join [newline] (map rstrip (str_split newline s))) = true.
Proof.
  apply lines_clean_join.
  - apply Forall_map, Forall_forall. intros l _. apply rstrip_idem.
  - apply Forall_map. eapply Forall_impl; [|apply split_lines_no_newline].
    intros l Hl H. apply Hl, rstrip_in, H.
Qed.

Lemma lines_clean_repeat k s :
  lines_clean false (repeat newline k ++ s) = lines_clean false s.
Proof.
  induction k as [|k IH]; [reflexivity|].
  cbn [repeat app lines_clean]. rewrite Ascii.eqb_refl. exact IH.
Qed.

Lemma lines_clean_collapse s : forall r b,
  ((0 < r)%nat -> b = false) ->
  lines_clean b s = true -> lines_clean b (collapse_newlines r s) = true.
Proof.
  induction s as [|c s IH]; intros r b Hb H; cbn [collapse_newlines].
  - destruct r as [|r]; [exact H|]. rewrite (Hb ltac:(lia)).
    rewrite <- (app_nil_r (repeat _ _)), lines_clean_repeat. reflexivity.
  - cbn [lines_clean] in H.
    destruct (Ascii.eqb_spec c newline) as [->|Hne].
    + apply andb_true_iff in H as [Hb' H].
      destruct b; [discriminate|]. apply IH; [reflexivity | exact H].
    + assert (Hc : lines_clean b (c :: collapse_newlines 0 s) = true).
      { cbn [lines_clean]. destruct (Ascii.eqb_spec c newline); [tauto|].
        apply IH; [lia | exact H]. }
      destruct r as [|r]; [exact Hc|]. rewrite (Hb ltac:(lia)) in *.
      rewrite lines_clean_repeat. exact Hc.
Qed.

Lemma lines_clean_lstrip s : forall b,
  lines_clean b s = true -> lines_clean false (lstrip s) = true.
Proof.
  induction s as [|c s IH]; intros b H; [reflexivity|].
  cbn [lstrip]. destruct (is_space c) eqn:Ec.
  - cbn [lines_clean] in H. rewrite Ec in H.
    destruct (Ascii.eqb c newline).
    + apply andb_true_iff in H as [_ H]. apply (IH _ H).
    + apply (IH _ H).
  - apply (lines_clean_weaken _ _ H).
Qed.

Lemma blanks_not_clean s :
  forallb is_space s = true -> lines_clean true s = false.
Proof.
  induction s as [|c s IH]; [reflexivity|]. cbn [forallb lines_clean].
  intros H. apply andb_true_iff in H as [Hc Hs]. rewrite Hc.
  destruct (Ascii.eqb c newline); [reflexivity | apply IH, Hs].
Qed.

Lemma newline_is_space : is_space newline = true.
Proof. reflexivity. Qed.

Lemma lines_clean_rstrip s : forall b,
  lines_clean b s = true -> lines_clean b (rstrip s) = true.
Proof.
  induction s as [|c s IH]; intros b H; [exact H|].
  cbn [rstrip]. cbn [lines_clean] in H.
  destruct (rstrip s) as [|k kept] eqn:E.
  - apply rstrip_nil in E. destruct (is_space c) eqn:Ec.
    + cbn [lines_clean]. destruct (Ascii.eqb c newline).
      * apply andb_true_iff in H as [H _]. exact H.
      * rewrite (blanks_not_clean _ E) in H. discriminate.
    + cbn [lines_clean].
      destruct (Ascii.eqb_spec c newline) as [->|Hne];
        [rewrite newline_is_space in Ec; discriminate|].
      rewrite Ec. reflexivity.
  - cbn [lines_clean]. destruct (Ascii.eqb c newline).
    + apply andb_true_iff in H as [Hb H]. rewrite Hb. apply (IH _ H).
    + apply (IH _ H).
Qed.

Lemma lines_clean_newline s : forall b,
  lines_clean b s = true -> lines_clean b (s ++ [newline]) = true.
Proof.
  induction s as [|c s IH]; intros b H; cbn [app lines_clean] in *.
  - rewrite Ascii.eqb_refl, H. reflexivity.
  - destruct (Ascii.eqb c newline).
    + apply andb_true_iff in H as [Hb H]. rewrite Hb. apply (IH _ H).
    + apply (IH _ H).
Qed.

Lemma normalized_lines_clean text0 :
  lines_clean false (_normalize_text text0) = true.
Proof.
  unfold _normalize_text. cbv zeta.
  apply lines_clean_newline. unfold strip.
  eapply lines_clean_lstrip, lines_clean_rstrip.
  apply lines_clean_collapse; [lia|]. apply lines_clean_trimmed.
Qed.

Lemma rstripped_last s : forall pre c,
  rstrip s = s -> s = pre ++ [c] -> is_space c = false.
Proof.
  induction s as [|d s IH]; intros pre c Hr E.
  - destruct pre; discriminate.
  - destruct (rstrip_fixed_cons d s Hr) as [Hs Hd].
    destruct pre as [|p pre]; injection E as -> E.
    + apply Hd, E.
    + apply (IH pre c Hs E).
Qed.

Lemma lstripped_head s c rest : lstrip s = c :: rest -> is_space c = false.
Proof.
  induction s as [|d s IH]; [discriminate|]. cbn [lstrip].
  destruct (is_space d) eqn:Ed; [exact IH|].
  intros H. injection H as <- _. exact Ed.
Qed.

Lemma lines_clean_split s : forall b,
  lines_clean b s = true ->
  Forall (fun l => rstrip l = l) (str_split newline s).
Proof.
  induction s as [|c s IH]; intros b H; [repeat constructor|].
  cbn [str_split]. cbn [lines_clean] in H.
  destruct (str_split_cons newline s) as (l & ls & E).
  destruct (Ascii.eqb_spec c newline) as [->|Hne].
  - apply andb_true_iff in H as [_ H]. constructor; [reflexivity|].
    apply (IH _ H).
  - pose proof (IH _ H) as Hall. rewrite E in *.
    inversion Hall as [|? ? Hl Hls]; subst.
    constructor; [|exact Hls]. apply rstrip_fixed_build; [exact Hl|].
    intros Hnil. destruct (split_head_nil _ _ _ E Hnil) as [->|[rest ->]];
      cbn [lines_clean] in H.
    + destruct (is_space c); [discriminate | reflexivity].
    + rewrite Ascii.eqb_refl in H. destruct (is_space c);
        [discriminate | reflexivity].
Qed.

(** *** Runs of newlines *)

Lemma runs_short_bound s : forall r, runs_short r s = true -> (r <= 2)%nat.
Proof.
  induction s as [|c s IH]; intros r H; cbn [runs_short] in H.
  - apply Nat.leb_le, H.
  - destruct (Ascii.eqb c newline).
    + apply IH in H. lia.
    + apply andb_true_iff in H as [H _]. apply Nat.leb_le, H.
Qed.

Lemma runs_short_mono s : forall r r',
  (r' <= r)%nat -> runs_short r s = true -> runs_short r' s = true.
Proof.
  induction s as [|c s IH]; intros r r' Hle H; cbn [runs_short] in *.
  - apply Nat.leb_le. apply Nat.leb_le in H. lia.
  - destruct (Ascii.eqb c newline).
    + apply (IH (S r)); [lia | exact H].
    + apply andb_true_iff in H as [Hr H]. rewrite H.
      apply Nat.leb_le in Hr. rewrite andb_true_r. apply Nat.leb_le. lia.
Qed.

Lemma runs_short_repeat j : forall r s,
  runs_short r (repeat newline j ++ s) = runs_short (r + j) s.
Proof.
  induction j as [|j IH]; intros r s.
  - rewrite Nat.add_0_r. reflexivity.
  - cbn [repeat app runs_short]. rewrite Ascii.eqb_refl, IH.
    f_equal. lia.
Qed.

Lemma runs_short_collapse s : forall r,
  runs_short 0 (collapse_newlines r s) = true.
Proof.
  induction s as [|c s IH]; intros r; cbn [collapse_newlines].
  - rewrite <- (app_nil_r (repeat _ _)), runs_short_repeat.
    cbn [runs_short]. apply Nat.leb_le. lia.
  - destruct (Ascii.eqb_spec c newline) as [->|Hne]; [apply IH|].
    rewrite runs_short_repeat. cbn [runs_short].
    destruct (Ascii.eqb_spec c newline); [tauto|].
    rewrite IH, andb_true_r. apply Nat.leb_le. lia.
Qed.

Lemma runs_short_lstrip s : forall r,
  runs_short r s = true -> runs_short 0 (lstrip s) = true.
Proof.
  induction s as [|c s IH]; intros r H; [reflexivity|].
  cbn [lstrip]. destruct (is_space c).
  - cbn [runs_short] in H. destruct (Ascii.eqb c newline).
    + apply (IH _ H).
    + apply andb_true_iff in H as [_ H]. apply (IH _ H).
  - apply (runs_short_mono _ r); [lia | exact H].
Qed.

Lemma runs_short_rstrip s : forall r,
  runs_short r s = true -> runs_short r (rstrip s) = true.
Proof.
  induction s as [|c s IH]; intros r H; [exact H|].
  pose proof (runs_short_bound _ _ H) as Hr.
  cbn [rstrip]. cbn [runs_short] in H.
  destruct (rstrip s) as [|k kept] eqn:E.
  - destruct (is_space c) eqn:Ec; cbn [runs_short].
    + apply Nat.leb_le, Hr.
    + destruct (Ascii.eqb_spec c newline) as [->|Hne];
        [rewrite newline_is_space in Ec; discriminate|].
      apply andb_true_iff. split; [apply Nat.leb_le, Hr | reflexivity].
  - cbn [runs_short]. destruct (Ascii.eqb c newline).
    + apply (IH _ H).
    + apply andb_true_iff in H as [H1 H]. rewrite H1. apply (IH _ H).
Qed.

Lemma runs_short_newline s : forall r,
  rstrip s = s -> (s = [] -> (r <= 1)%nat) ->
  runs_short r s = true -> runs_short r (s ++ [newline]) = true.
Proof.
  induction s as [|c s IH]; intros r Hs Hr H.
  - cbn [app runs_short]. rewrite Ascii.eqb_refl. apply Nat.leb_le.
    specialize (Hr eq_refl). lia.
  - destruct (rstrip_fixed_cons c s Hs) as [Hs' Hc].
    cbn [app runs_short] in *.
    destruct (Ascii.eqb_spec c newline) as [->|Hne].
    + apply IH; [exact Hs' | | exact H].
      intros Hnil. rewrite newline_is_space in Hc. discriminate (Hc Hnil).
    + apply andb_true_iff in H as [H1 H]. rewrite H1.
      apply IH; [exact Hs' | lia | exact H].
Qed.

Lemma runs_short_triple pre post : forall r,
  runs_short r (pre ++ [newline; newline; newline] ++ post) = false.
Proof.
  induction pre as [|c pre IH]; intros r.
  - cbn [app runs_short]. rewrite Ascii.eqb_refl.
    destruct (runs_short _ post) eqn:E; [|reflexivity].
    apply runs_short_bound in E. lia.
  - cbn [app runs_short] in *. destruct (Ascii.eqb c newline); [apply IH|].
    rewrite IH. apply andb_false_r.
Qed.

Lemma repeat_shift (a : ascii) r s :
  repeat a (S r) ++ s = repeat a r ++ a :: s.
Proof.
  induction r as [|r IH]; [reflexivity|].
  cbn [repeat app] in *. rewrite IH. reflexivity.
Qed.

Lemma collapse_short s : forall r,
  runs_short r s = true -> collapse_newlines r s = repeat newline r ++ s.
Proof.
  induction s as [|c s IH]; intros r H.
  - apply runs_short_bound in H. cbn [collapse_newlines].
    rewrite app_nil_r. f_equal. lia.
  - pose proof (runs_short_bound _ _ H) as Hr.
    cbn [collapse_newlines]. cbn [runs_short] in H.
    destruct (Ascii.eqb_spec c newline) as [->|Hne].
    + rewrite (IH _ H). apply repeat_shift.
    + apply andb_true_iff in H as [_ H]. rewrite (IH _ H).
      replace (Nat.min r 2) with r by lia. reflexivity.
Qed.

Lemma normalized_runs_short text0 :
  runs_short 0 (_normalize_text text0) = true.
Proof.
  unfold _normalize_text. cbv zeta.
  apply runs_short_newline; [apply strip_rstripped | lia |].
  unfold strip. eapply runs_short_lstrip, runs_short_rstrip.
  apply runs_short_collapse.
Qed.

(** *** The normalized text *)

Lemma map_fixed (f : str -> str) ls :
  Forall (fun l => f l = l) ls -> map f ls = ls.
Proof.
  induction 1 as [|l ls Hl _ IH]; [reflexivity|].
  cbn [map]. rewrite Hl, IH. reflexivity.
Qed.

Lemma strip_ends s :
  (forall c rest, strip s = c :: rest -> is_space c = false) /\
  (forall pre c, strip s = pre ++ [c] -> is_space c = false).
Proof.
  split.
  - intros c rest H. exact (lstripped_head _ _ _ H).
  - intros pre c H. exact (rstripped_last _ _ _ (strip_rstripped s) H).
Qed.

(** A text that already has the normal form is returned as it is. *)
Lemma normalize_fixed body :
  let s := body ++ [newline] in
  ~ In cr s -> lines_clean false s = true -> runs_short 0 s = true ->
  strip body = body -> _normalize_text s = s.
Proof.
  intros s Hcr Hlines Hruns Hbody. unfold _normalize_text.
  rewrite (replace_absent cr [newline] [newline] s Hcr).
  rewrite (replace_absent cr [] [newline] s Hcr).
  rewrite (map_fixed rstrip _ (lines_clean_split _ _ Hlines)), join_split.
  rewrite (collapse_short _ _ Hruns). cbn [repeat app].
  unfold s, strip. rewrite (rstrip_snoc_space _ _ newline_is_space).
  fold (strip body). rewrite Hbody. reflexivity.
Qed.

(** X13. [_normalize_text] leaves no carriage return in the text: every
    [\r\n] and every remaining [\r] has become a newline, and no later step
    brings one back. *)
Theorem normalized_no_carriage_return (text0 : str) :
  ~ In cr (_normalize_text text0).
Proof.
  intros H. apply normalized_in in H as [H|H]; [discriminate|].
  exact (replace_cr_free _ H).
Qed.

(** X14. The text [_normalize_text] returns holds no three newlines in a
    row, that is, never more than one empty line between two lines; the
    later [strip] and the newline appended at the end do not undo what the
    substitution of [\n{3,}] did. *)
Theorem normalized_blank_lines (text0 pre post : str) :
  _normalize_text text0 <> pre ++ [newline; newline; newline] ++ post.
Proof.
  intros E. pose proof (normalized_runs_short text0) as H.
  rewrite E, runs_short_triple in H. discriminate.
Qed.

(** X15. The text [_normalize_text] returns is a body followed by exactly
    one newline, where the body neither begins nor ends with white space
    (newlines included); so the result is never empty and ends in one
    newline only. *)
Theorem normalized_frame (text0 : str) :
  exists body,
    _normalize_text text0 = body ++ [newline] /\
    (forall c rest, body = c :: rest -> is_space c = false) /\
    (forall pre c, body = pre ++ [c] -> is_space c = false).
Proof.
  unfold _normalize_text. cbv zeta. eexists. split; [reflexivity|].
  apply strip_ends.
Qed.

(** X16. No line of the text [_normalize_text] returns ends in white
    space: the trimming of the lines survives the collapsing of the empty
    lines and the final [strip]. *)
Theorem normalized_lines_trimmed (text0 : str) :
  Forall (fun l => forall pre c, l = pre ++ [c] -> is_space c = false)
    (str_split newline (_normalize_text text0)).
Proof.
  eapply Forall_impl;
    [|exact (lines_clean_split _ _ (normalized_lines_clean text0))].
  intros l Hl pre c E. exact (rstripped_last _ _ _ Hl E).
Qed.

(** X17. [_normalize_text] is idempotent: normalizing a normalized text
    changes nothing. *)
Theorem normalize_idempotent (text0 : str) :
  _normalize_text (_normalize_text text0) = _normalize_text text0.
Proof.
  pose proof (normalized_no_carriage_return text0) as Hcr.
  pose proof (normalized_lines_clean text0) as Hlines.
  pose proof (normalized_runs_short text0) as Hruns.
  unfold _normalize_text in Hcr, Hlines, Hruns |- *. cbv zeta in *.
  apply normalize_fixed; [assumption.. | apply strip_idem].
Qed.

(** X18. A text of white space only (blanks, tabs, carriage returns,
    newlines, the empty text included) is normalized to a single newline, so
    the file written for it holds one empty line. *)
Theorem blank_text_normalizes_to_newline (text0 : str) :
  forallb is_space text0 = true -> _normalize_text text0 = [newline].
Proof.
  intros Hblank. unfold _normalize_text. cbv zeta. unfold strip.
  replace (rstrip _) with (@nil ascii); [reflexivity|].
  symmetry. apply rstrip_nil, forallb_forall. intros c H.
  apply collapse_in in H as [->|H]; [reflexivity|].
  apply trimmed_lines_in in H as [->|H]; [reflexivity|].
  apply replace_in in H as [[<-|[]]|H]; [reflexivity|].
  apply replace_in in H as [[<-|[]]|H]; [reflexivity|].
  exact (proj1 (forallb_forall _ _) Hblank c H).
Qed.

Lemma blank_text_normalizes_to_newline_witness :
  let text0 := [" "; cr; newline; "009"; newline; cr; " "]%char in
  forallb is_space text0 = true /\ _normalize_text text0 = [newline].
Proof.
  split; [reflexivity|].
  apply blank_text_normalizes_to_newline. reflexivity.
Defined.

(** *** Choosing the extractor *)

Lemma truthy_none r : truthy r = None <-> empty_result r.
Proof.
  unfold empty_result. destruct r as [[|c s]|]; cbn [truthy].
  - split; auto.
  - split; [discriminate | intros [H|H]; discriminate].
  - split; auto.
Qed.

Lemma truthy_some r t : truthy r = Some t -> r = Some t /\ t <> [].
Proof.
  destruct r as [[|c s]|]; cbn [truthy]; try discriminate.
  intros H. injection H as <-. split; [reflexivity | discriminate].
Qed.

(** X19. [extract_pdf_text] tries PyMuPDF, pdfminer and pypdf in this
    order: it raises [RuntimeError] exactly when each of the three returns
    [None] or the empty text, and a text it returns is never empty and is
    the result of the first extractor whose result is not empty. *)
Theorem pdf_backends_in_order (B : PdfBackends) (pdf_path : str) :
  let results := [extract_text_with_pymupdf B pdf_path;
                  extract_text_with_pdfminer B pdf_path;
                  extract_text_with_pypdf B pdf_path] in
  (extract_pdf_text B pdf_path = Raise RuntimeError <->
   Forall empty_result results) /\
  (forall t, extract_pdf_text B pdf_path = Ok t ->
     t <> [] /\
     exists before after,
       results = before ++ Some t :: after /\ Forall empty_result before).
Proof.
  cbv zeta. unfold extract_pdf_text.
  destruct (truthy (extract_text_with_pymupdf B pdf_path)) as [t1|] eqn:E1;
    [apply truthy_some in E1 as [E1 N1]|apply truthy_none in E1].
  { split.
    - split; [discriminate|]. intros H. inversion H as [|? ? [H1|H1] _]; subst;
        congruence.
    - intros t H. injection H as <-. split; [exact N1|].
      exists []. eexists. rewrite E1. split; [reflexivity | constructor]. }
  destruct (truthy (extract_text_with_pdfminer B pdf_path)) as [t2|] eqn:E2;
    [apply truthy_some in E2 as [E2 N2]|apply truthy_none in E2].
  { split.
    - split; [discriminate|]. intros H.
      inversion H as [|? ? _ H']; subst.
      inversion H' as [|? ? [H2|H2] _]; subst; congruence.
    - intros t H. injection H as <-. split; [exact N2|].
      exists [extract_text_with_pymupdf B pdf_path]. eexists. rewrite E2.
      split; [reflexivity|].
      constructor; [exact E1 | constructor]. }
  destruct (truthy (extract_text_with_pypdf B pdf_path)) as [t3|] eqn:E3;
    [apply truthy_some in E3 as [E3 N3]|apply truthy_none in E3].
  { split.
    - split; [discriminate|]. intros H.
      inversion H as [|? ? _ H']; subst. inversion H' as [|? ? _ H'']; subst.
      inversion H'' as [|? ? [H3|H3] _]; subst; congruence.
    - intros t H. injection H as <-. split; [exact N3|].
      exists [extract_text_with_pymupdf B pdf_path;
              extract_text_with_pdfminer B pdf_path]. eexists. rewrite E3.
      split; [reflexivity|].
      constructor; [exact E1 | constructor; [exact E2 | constructor]]. }
  split.
  - split; [intros _ | reflexivity].
    constructor; [exact E1 | constructor; [exact E2 |]].
    constructor; [exact E3 | constructor].
  - intros t H. discriminate.
Qed.
